(** * beat-func: the content-addressed beat cache and the request pipeline

    A shallow embedding of [main.py]: the fingerprint of an uploaded song,
    the bounded cache of beat analyses kept on disk ([LRUFileCache]), the
    derivation of the BPM window from the request settings, and the request
    pipeline ([find_or_load_beats], [process_song] and the two handlers).

    The file system is a finite map from paths to byte contents, the process
    state is threaded explicitly, and a raised exception is an [Err] result.
    The beat engine, the MP3 metadata reader, pickle, the JSON decoder and the
    downloader are collaborators of the program: they are the fields of the
    class [Collaborators], over which the pipeline is parametrised. *)

From Stdlib Require Import ZArith QArith Lia.
From stdpp Require Import gmap strings list fin_maps sorting.
From Stdlib Require Import Strings.Byte.

Local Open Scope Z_scope.
Set Warnings "-register-all".

(** Python [bytes]. *)
Abbreviation bytes := (list byte).

#[global] Instance byte_eq_dec : EqDecision byte := Byte.byte_eq_dec.

(** ** XXH32, the hash behind [xxhash.xxh32()]

    The 32-bit xxHash with seed 0, in its streaming form: four 32-bit lanes,
    a buffer of fewer than 16 pending bytes, the 32-bit byte counter and the
    flag that records that at least one 16-byte stripe has been seen. *)
Module XXH32.

Definition PRIME32_1 : Z := 2654435761.
Definition PRIME32_2 : Z := 2246822519.
Definition PRIME32_3 : Z := 3266489917.
Definition PRIME32_4 : Z := 668265263.
Definition PRIME32_5 : Z := 374761393.

(** Arithmetic on [uint32_t] wraps around. *)
Definition u32 (x : Z) : Z := x mod 2 ^ 32.

Definition rotl32 (x r : Z) : Z :=
  u32 (Z.lor (Z.shiftl x r) (Z.shiftr x (32 - r))).

Definition byte_val (b : byte) : Z := Z.of_N (Byte.to_N b).

(** Little-endian read of the first four bytes (missing bytes read as 0;
    the callers below always pass at least four). *)
Definition read32le (p : bytes) : Z :=
  match p with
  | b0 :: b1 :: b2 :: b3 :: _ =>
      Z.lor (byte_val b0)
        (Z.lor (Z.shiftl (byte_val b1) 8)
           (Z.lor (Z.shiftl (byte_val b2) 16) (Z.shiftl (byte_val b3) 24)))
  | _ => 0
  end.

Definition round (acc input : Z) : Z :=
  u32 (rotl32 (u32 (acc + input * PRIME32_2)) 13 * PRIME32_1).

Record lanes := Lanes { v1 : Z; v2 : Z; v3 : Z; v4 : Z }.

(** One 16-byte stripe: each lane absorbs one little-endian word. *)
Definition stripe (v : lanes) (p : bytes) : lanes :=
  {| v1 := round (v1 v) (read32le p);
     v2 := round (v2 v) (read32le (drop 4 p));
     v3 := round (v3 v) (read32le (drop 8 p));
     v4 := round (v4 v) (read32le (drop 12 p)) |}.

(** The first [n] stripes of [data]. *)
Fixpoint stripes (n : nat) (v : lanes) (data : bytes) : lanes :=
  match n with
  | O => v
  | S n' => stripes n' (stripe v (take 16 data)) (drop 16 data)
  end.

Record state := State {
  total_len_32 : Z;
  large_len : bool;
  acc : lanes;
  mem : bytes
}.

(** [xxhash.xxh32()]: reset with seed 0. *)
Definition init : state :=
  {| total_len_32 := 0;
     large_len := false;
     acc := {| v1 := u32 (PRIME32_1 + PRIME32_2); v2 := PRIME32_2;
               v3 := 0; v4 := u32 (0 - PRIME32_1) |};
     mem := [] |}.

(** [h.update(block)]: the pending bytes followed by the block are consumed
    in whole stripes, and what is left (fewer than 16 bytes) stays pending. *)
Definition update (s : state) (input : bytes) : state :=
  let len := Z.of_nat (length input) in
  let total := u32 (total_len_32 s + len) in
  let all := mem s ++ input in
  let n := (length all / 16)%nat in
  {| total_len_32 := total;
     large_len := large_len s || (16 <=? len) || (16 <=? total);
     acc := stripes n (acc s) all;
     mem := drop (16 * n) all |}.

(** The tail of fewer than 16 bytes: whole words first, then single bytes. *)
Fixpoint finalize_bytes (h : Z) (p : bytes) : Z :=
  match p with
  | [] => h
  | b :: p' =>
      finalize_bytes (u32 (rotl32 (u32 (h + byte_val b * PRIME32_5)) 11 * PRIME32_1)) p'
  end.

Fixpoint finalize_words (n : nat) (h : Z) (p : bytes) : Z :=
  match n with
  | O => finalize_bytes h p
  | S n' =>
      finalize_words n' (u32 (rotl32 (u32 (h + read32le p * PRIME32_3)) 17 * PRIME32_4))
        (drop 4 p)
  end.

Definition avalanche (h : Z) : Z :=
  let h := Z.lxor h (Z.shiftr h 15) in
  let h := u32 (h * PRIME32_2) in
  let h := Z.lxor h (Z.shiftr h 13) in
  let h := u32 (h * PRIME32_3) in
  Z.lxor h (Z.shiftr h 16).

(** [h.intdigest()]. *)
Definition intdigest (s : state) : Z :=
  let v := acc s in
  let h := if large_len s
           then u32 (rotl32 (v1 v) 1 + rotl32 (v2 v) 7 + rotl32 (v3 v) 12 + rotl32 (v4 v) 18)
           else u32 (v3 v + PRIME32_5) in
  let h := u32 (h + total_len_32 s) in
  avalanche (finalize_words (length (mem s) / 4) h (mem s)).

Definition byte_of_Z (z : Z) : byte :=
  default x00 (Byte.of_N (Z.to_N (z mod 256))).

(** [h.digest()]: the four bytes of the value, most significant first. *)
Definition digest (s : state) : bytes :=
  let h := intdigest s in
  [byte_of_Z (Z.shiftr h 24); byte_of_Z (Z.shiftr h 16);
   byte_of_Z (Z.shiftr h 8); byte_of_Z h].

(** The value of a digest read back as an unsigned big-endian integer. *)
Definition digest_value (d : bytes) : Z :=
  fold_left (fun a b => a * 256 + byte_val b) d 0.

(** One-shot hash of a whole byte string. *)
Definition xxh32 (data : bytes) : Z := intdigest (update init data).

End XXH32.

Definition bytes_of_string (s : string) : bytes := String.list_byte_of_string s.

(** ** Python values, exceptions and results *)

(** The exceptions the program raises, catches or lets through.
    [HTTPException] carries the status code and the detail string;
    [Exception] stands for any other exception class (what the beat engine,
    pickle or the downloader may raise). *)
Inductive exn :=
  | HTTPException (status_code : Z) (detail : string)
  | MutagenError
  | TypeError
  | KeyError
  | ValueError
  | FileNotFoundError
  | AttributeError
  | Exception (what : string).

Inductive result (A : Type) :=
  | Ok (a : A)
  | Err (e : exn).
Arguments Ok {A} a.
Arguments Err {A} e.

Definition result_of_option {A} (e : exn) (o : option A) : result A :=
  match o with
  | Some a => Ok a
  | None => Err e
  end.

(** A decoded JSON document. Numbers are the integers (the interface declares
    [suggested_bpm] and [drift] as int); an object lists its members in
    order, each key once, as [json.loads] builds the dict. *)
Inductive json :=
  | JNull
  | JBool (b : bool)
  | JInt (n : Z)
  | JStr (s : string)
  | JList (l : list json)
  | JObj (members : list (string * json)).

Abbreviation dict := (list (string * json)).

(** [key in d] and [d[key]]. *)
Fixpoint dict_get (key : string) (d : dict) : option json :=
  match d with
  | [] => None
  | (k, v) :: d' => if String.eqb k key then Some v else dict_get key d'
  end.

(** What is left of [d] after [d.pop(key, default)]. *)
Fixpoint dict_pop (key : string) (d : dict) : dict :=
  match d with
  | [] => []
  | (k, v) :: d' => if String.eqb k key then dict_pop key d' else (k, v) :: dict_pop key d'
  end.

(** The operand of an integer [+] or [-]: ints, and bools as 0 and 1; any
    other JSON value makes the operation raise [TypeError]. *)
Definition as_number (j : json) : option Z :=
  match j with
  | JInt n => Some n
  | JBool b => Some (if b then 1 else 0)
  | _ => None
  end.

(** [for e in value]: a list yields its elements, a string its characters,
    a dict its keys; anything else is not iterable. *)
Definition py_iter (j : json) : result (list json) :=
  match j with
  | JList l => Ok l
  | JStr s => Ok (map (fun c => JStr (String c EmptyString)) (String.list_ascii_of_string s))
  | JObj members => Ok (map (fun kv => JStr (fst kv)) members)
  | _ => Err TypeError
  end.

(** ** Settings *)

Definition MAX_LENGTH : Z := 60 * 6 + 30.

Record kwargs := Kwargs { min_bpm : Z; max_bpm : Z }.

(** [_settings_to_kwargs]: the keyword arguments, and the settings dict as
    the call leaves it ([pop] removes [drift]). A non-numeric value raises
    [TypeError] at the subtraction. *)
Definition _settings_to_kwargs (settings : dict) : result (kwargs * dict) :=
  let kwargs := {| min_bpm := 60; max_bpm := 300 |} in
  match dict_get "suggested_bpm" settings with
  | Some suggested_bpm =>
      let drift := default (JInt 15) (dict_get "drift" settings) in
      let settings := dict_pop "drift" settings in
      match as_number suggested_bpm, as_number drift with
      | Some s, Some d =>
          Ok ({| min_bpm := s - d; max_bpm := s + d |}, settings)
      | _, _ => Err TypeError
      end
  | None => Ok (kwargs, settings)
  end.

(** ** cachetools.LRUCache

    The library's cache with [getsizeof] left at its default (every entry
    has size 1): the entries in recency order, least recently used first.
    The list stands for both the library's data dict and its order dict,
    which hold the same keys. *)
Section LRUCache.
Context {K V : Type} `{EqDecision K}.

Record LRUCache := { maxsize : nat; entries : list (K * V) }.

Definition empty_cache (n : nat) : LRUCache := {| maxsize := n; entries := [] |}.

Definition keys (c : LRUCache) : list K := map fst (entries c).

(** [len(cache)], which is also the library's [currsize]. *)
Definition currsize (c : LRUCache) : nat := length (entries c).

Fixpoint assoc (k : K) (l : list (K * V)) : option V :=
  match l with
  | [] => None
  | (k', v) :: l' => if decide (k' = k) then Some v else assoc k l'
  end.

Fixpoint remove_key (k : K) (l : list (K * V)) : list (K * V) :=
  match l with
  | [] => []
  | (k', v) :: l' =>
      if decide (k' = k) then remove_key k l' else (k', v) :: remove_key k l'
  end.

(** [key in cache]: does not touch the order. *)
Definition contains (k : K) (c : LRUCache) : bool :=
  match assoc k (entries c) with
  | Some _ => true
  | None => false
  end.

(** [cache[key]]: the value, and the key moved to the most recent end;
    [None] is [KeyError]. *)
Definition getitem (k : K) (c : LRUCache) : option (V * LRUCache) :=
  match assoc k (entries c) with
  | Some v =>
      Some (v, {| maxsize := maxsize c; entries := remove_key k (entries c) ++ [(k, v)] |})
  | None => None
  end.

(** [LRUCache.popitem]: removes and returns the least recently used pair;
    [None] is [KeyError] on an empty cache. *)
Definition lru_popitem (c : LRUCache) : option ((K * V) * LRUCache) :=
  match entries c with
  | [] => None
  | kv :: rest => Some (kv, {| maxsize := maxsize c; entries := rest |})
  end.

(** The end of [__setitem__], after room has been made: the value is
    stored and the key becomes the most recent. *)
Definition store (k : K) (v : V) (c : LRUCache) : LRUCache :=
  {| maxsize := maxsize c; entries := remove_key k (entries c) ++ [(k, v)] |}.

End LRUCache.
Arguments LRUCache : clear implicits.

(** ** The process state *)

(** What the cache code writes to the log. *)
Inductive event :=
  | CacheEvicting (k : bytes)
  | CacheHit (d : bytes)
  | CacheLoadFailed (d : bytes) (e : exn)
  | CacheMiss (d : bytes).

Record world := World {
  fs : gmap string bytes;               (* the disk: path to content *)
  cache : LRUCache bytes string;        (* the module-level [cache] *)
  log : list event;                     (* most recent last *)
  engine_calls : list (string * kwargs) (* beat analyses run so far *)
}.

(** At start-up: [cache = LRUFileCache(maxsize=8)]. *)
Definition initial_world (disk : gmap string bytes) : world :=
  {| fs := disk; cache := empty_cache 8; log := []; engine_calls := [] |}.

Definition set_fs (f : gmap string bytes) (w : world) : world :=
  {| fs := f; cache := cache w; log := log w; engine_calls := engine_calls w |}.
Definition set_cache (c : LRUCache bytes string) (w : world) : world :=
  {| fs := fs w; cache := c; log := log w; engine_calls := engine_calls w |}.
Definition add_log (ev : event) (w : world) : world :=
  {| fs := fs w; cache := cache w; log := log w ++ [ev]; engine_calls := engine_calls w |}.
Definition add_engine_call (c : string * kwargs) (w : world) : world :=
  {| fs := fs w; cache := cache w; log := log w; engine_calls := engine_calls w ++ [c] |}.

(** A computation returns or raises, and leaves a state either way. *)
Definition M (A : Type) : Type := world -> result A * world.

Definition ret {A} (a : A) : M A := fun w => (Ok a, w).
Definition raise {A} (e : exn) : M A := fun w => (Err e, w).
Definition bind {A B} (m : M A) (f : A -> M B) : M B :=
  fun w =>
    match m w with
    | (Ok a, w') => f a w'
    | (Err e, w') => (Err e, w')
    end.
(** [try: m  except ...: h e], where [h] returns [None] for an exception the
    clauses do not catch. *)
Definition try_except {A} (m : M A) (h : exn -> option (M A)) : M A :=
  fun w =>
    match m w with
    | (Ok a, w') => (Ok a, w')
    | (Err e, w') =>
        match h e with
        | Some handler => handler w'
        | None => (Err e, w')
        end
    end.
Definition lift {A} (r : result A) : M A := fun w => (r, w).

Declare Scope M_scope.
Delimit Scope M_scope with M.
Notation "'let!' x := m 'in' k" := (bind m (fun x => k))
  (at level 10, x name, m at level 100, k at level 200) : M_scope.
Local Open Scope M_scope.

(** The few file-system and logging primitives the program uses. *)
Definition read_file (path : string) : M bytes :=
  fun w => (result_of_option FileNotFoundError (fs w !! path), w).
Definition write_file (path : string) (content : bytes) : M unit :=
  fun w => (Ok tt, set_fs (<[path := content]> (fs w)) w).
Definition os_path_isfile (path : string) : M bool :=
  fun w => (Ok (bool_decide (is_Some (fs w !! path))), w).
Definition os_remove (path : string) : M unit :=
  fun w =>
    match fs w !! path with
    | Some _ => (Ok tt, set_fs (delete path (fs w)) w)
    | None => (Err FileNotFoundError, w)
    end.
Definition logger (ev : event) : M unit := fun w => (Ok tt, add_log ev w).


(** ** LRUFileCache *)

(** [super().popitem()] on the module-level cache. *)
Definition super_popitem : M (bytes * string) :=
  fun w =>
    match lru_popitem (cache w) with
    | Some (kv, c') => (Ok kv, set_cache c' w)
    | None => (Err KeyError, w)
    end.

(** [LRUFileCache.popitem]: drops the least recently used entry, logs it and
    removes its backing file when there is one. *)
Definition popitem : M unit :=
  let! kv := super_popitem in
  let! _ := logger (CacheEvicting (fst kv)) in
  let! isfile := os_path_isfile (snd kv) in
  if isfile then os_remove (snd kv) else ret tt.

(** The loop of [Cache.__setitem__],
    [while self.currsize + size > maxsize: self.popitem()], with [size = 1].
    Every turn removes one entry, so [S currsize] turns are enough. *)
Fixpoint make_room (fuel : nat) : M unit :=
  match fuel with
  | O => ret tt
  | S fuel' =>
      fun w =>
        if (maxsize (cache w) <? currsize (cache w) + 1)%nat
        then (let! _ := popitem in make_room fuel') w
        else (Ok tt, w)
  end.

(** [cache[k] = v]. *)
Definition cache_setitem (k : bytes) (v : string) : M unit :=
  fun w =>
    if (maxsize (cache w) <? 1)%nat then (Err ValueError, w)
    else
      (let! _ := (if contains k (cache w) then ret tt
                  else make_room (S (currsize (cache w)))) in
       fun w' => (Ok tt, set_cache (store k v (cache w')) w')) w.

(** [cache[k]]. *)
Definition cache_getitem (k : bytes) : M string :=
  fun w =>
    match getitem k (cache w) with
    | Some (v, c') => (Ok v, set_cache c' w)
    | None => (Err KeyError, w)
    end.

(** [k in cache]. *)
Definition cache_contains (k : bytes) : M bool :=
  fun w => (Ok (contains k (cache w)), w).

(** ** Collaborators *)

(** What the program calls but does not define. Each function returns the
    value or the exception of the call. *)
Class Collaborators := {
  (** [bm.Beats] and [bm.effects.base.LoadableEffect] *)
  Beats : Type;
  LoadableEffect : Type;
  (** [MP3(...).info.length] of a file with this content, in seconds *)
  MP3_length : bytes -> result Q;
  (** [bm.Beats.from_song] on a file with this content, with a loader that
      calls [load_beats_by_signal] with these keyword arguments *)
  from_song : bytes -> kwargs -> result Beats;
  (** [beats.apply(e)] *)
  apply : Beats -> LoadableEffect -> result Beats;
  (** [beats.save(buf, out_format="mp3")]: the bytes written to [buf] *)
  save : Beats -> result bytes;
  pickle_dump : Beats -> bytes;
  pickle_load : bytes -> result Beats;
  (** [bm.effects.load_from_dict] *)
  load_from_dict : json -> result LoadableEffect;
  json_loads : string -> result json;
  (** [YoutubeDL(...).download([url])] with the output template
      [<base>.mp4] and the MP3 post-processor, run on a disk: the outcome,
      and the disk as the tool leaves it. On success the audio is expected
      at [<base>.mp3]; on failure whatever was fetched so far may remain. *)
  youtube_download : string -> string -> gmap string bytes -> result unit * gmap string bytes
}.

(** ** The pipeline *)

Record response := StreamingResponse { body : bytes; media_type : string }.

Record YoutubeSongPayload := {
  youtube_url : string;
  effects : list dict;
  settings : dict
}.

(** Blocks of at most 512 bytes, as successive [file.read(512)] return them. *)
Fixpoint blocks (fuel : nat) (file : bytes) : list bytes :=
  match fuel with
  | O => []
  | S fuel' =>
      match take 512 file with
      | [] => []
      | block => block :: blocks fuel' (drop 512 file)
      end
  end.

(** The read loop of [find_or_load_beats]; a turn consumes at least one
    byte, so [length file] turns are enough. *)
Fixpoint read_blocks (fuel : nat) (h : XXH32.state) (file : bytes) : XXH32.state :=
  match fuel with
  | O => h
  | S fuel' =>
      match take 512 file with
      | [] => h
      | block => read_blocks fuel' (XXH32.update h block) (drop 512 file)
      end
  end.

(** Lines 74 to 80: the digest of the file's content. *)
Definition fingerprint (filename : string) : M bytes :=
  let! file := read_file filename in
  let h := read_blocks (length file) XXH32.init file in
  ret (XXH32.digest h).

(** The digest the loop computes for a file with this content. *)
Definition content_digest (content : bytes) : bytes :=
  XXH32.digest (read_blocks (length content) XXH32.init content).

(** [http.HTTPStatus]. *)
Definition UNPROCESSABLE_ENTITY : Z := 422.
Definition BAD_REQUEST : Z := 400.

Section Pipeline.
Context `{C : Collaborators}.

(** What [pickle.load(open(path, 'rb'))] gives in a state: the artifact,
    or the exception of [open] or of [pickle.load]. *)
Definition stored_artifact (w : world) (path : string) : result Beats :=
  match fs w !! path with
  | Some content => pickle_load content
  | None => Err FileNotFoundError
  end.

Definition pickle_load_file (path : string) : M Beats :=
  let! content := read_file path in
  lift (pickle_load content).

(** [bm.Beats.from_song(filename, beat_loader=loader)]: one run of the
    beat engine, recorded in [engine_calls]. *)
Definition Beats_from_song (filename : string) (loader : kwargs) : M Beats :=
  fun w =>
    (let! content := read_file filename in lift (from_song content loader))
      (add_engine_call (filename, loader) w).

(** Lines 89 to 98: the miss path. *)
Definition create_beats (d : bytes) (filename : string) (loader : kwargs) : M Beats :=
  let! _ := logger (CacheMiss d) in
  let! beats := Beats_from_song filename loader in
  let beat_filename := (filename ++ "_beats.pkl")%string in
  let! _ := write_file beat_filename (pickle_dump beats) in
  let! _ := cache_setitem d beat_filename in
  ret beats.

Definition find_or_load_beats (filename : string) (loader : kwargs) : M Beats :=
  let! d := fingerprint filename in
  let! hit := cache_contains d in
  let! found :=
    (if hit : bool then
       let! _ := logger (CacheHit d) in
       try_except
         (let! path := cache_getitem d in
          let! beats := pickle_load_file path in
          ret (Some beats))
         (fun e => Some (let! _ := logger (CacheLoadFailed d e) in ret None))
     else ret None) in
  match found with
  | Some beats => ret beats
  | None => create_beats d filename loader
  end.

(** [MP3(filename)]; a missing file is a [MutagenError] too. *)
Definition MP3 (filename : string) : M Q :=
  fun w =>
    match fs w !! filename with
    | Some content => (MP3_length content, w)
    | None => (Err MutagenError, w)
    end.

Fixpoint apply_effects (effects : list LoadableEffect) (beats : Beats) : result Beats :=
  match effects with
  | [] => Ok beats
  | e :: effects' =>
      match apply beats e with
      | Ok beats' => apply_effects effects' beats'
      | Err x => Err x
      end
  end.

(** Lines 112 to 131 of [process_song]: what follows the two checks. *)
Definition transform (effects : list LoadableEffect) (filename : string)
    (processing_args : kwargs) : M response :=
  let! beats := find_or_load_beats filename processing_args in
  let! beats := lift (apply_effects effects beats) in
  let! buf := lift (save beats) in
  let! _ := os_remove filename in
  ret {| body := buf; media_type := "audio/mpeg" |}.

Definition too_long : exn :=
  HTTPException UNPROCESSABLE_ENTITY "Song is too long (max is 390 seconds)".

Definition process_song (effects : list LoadableEffect) (filename : string)
    (processing_args : kwargs) : M response :=
  let! song_length :=
    try_except (MP3 filename)
      (fun e => match e with
                | MutagenError =>
                    Some (raise (HTTPException UNPROCESSABLE_ENTITY
                                   "Failed to read song metadata"))
                | _ => None
                end) in
  if negb (Qle_bool song_length (inject_Z MAX_LENGTH))
  then raise too_long
  else
    transform effects filename processing_args.

(** [[bm.effects.load_from_dict(e) for e in ...]]: the first exception
    ends the comprehension. *)
Fixpoint load_effects (descriptors : list json) : result (list LoadableEffect) :=
  match descriptors with
  | [] => Ok []
  | e :: rest =>
      match load_from_dict e with
      | Ok eff =>
          match load_effects rest with
          | Ok effs => Ok (eff :: effs)
          | Err x => Err x
          end
      | Err x => Err x
      end
  end.

Definition invalid_effect_data (e : exn) : option (M (list LoadableEffect)) :=
  match e with
  | TypeError => Some (raise (HTTPException BAD_REQUEST "Invalid effect data"))
  | _ => None
  end.

(** Lines 153 to 165: the download, which works on the disk and on
    nothing else. *)
Definition ydl_download (url base_filename : string) : M unit :=
  fun w =>
    let outcome := youtube_download url base_filename (fs w) in
    (fst outcome, set_fs (snd outcome) w).

(** [POST /yt]. [base_filename] is the [uuid4] drawn for the request. *)
Definition process_song_from_youtube (payload : YoutubeSongPayload)
    (base_filename : string) : M response :=
  let! effects :=
    try_except (lift (load_effects (map JObj (effects payload)))) invalid_effect_data in
  let! _ :=
    try_except
      (ydl_download (youtube_url payload) base_filename)
      (fun _ => Some (raise (HTTPException BAD_REQUEST "Failed to download video"))) in
  let! args := lift (_settings_to_kwargs (settings payload)) in
  process_song effects (base_filename ++ ".mp3") (fst args).

(** [_settings_to_kwargs] on whatever JSON value the form carried under
    [settings]: the membership test works on a list and on a string too,
    the subscript that follows a positive test only on a dict. *)
Definition settings_kwargs_of_json (settings : json) : result kwargs :=
  match settings with
  | JObj d =>
      match _settings_to_kwargs d with
      | Ok r => Ok (fst r)
      | Err e => Err e
      end
  | JList l =>
      if existsb (fun x => match x with
                           | JStr s => String.eqb s "suggested_bpm"
                           | _ => false
                           end) l
      then Err TypeError
      else Ok {| min_bpm := 60; max_bpm := 300 |}
  | JStr s =>
      match String.index 0 "suggested_bpm" s with
      | Some _ => Err TypeError
      | None => Ok {| min_bpm := 60; max_bpm := 300 |}
      end
  | _ => Err TypeError
  end.

(** Lines 183 to 191: the decoded form field, split into settings and
    loaded effects. *)
Definition parse_effects (effects : option string) : M (json * list LoadableEffect) :=
  let! text := lift (result_of_option TypeError effects) in
  let! effect_data := lift (json_loads text) in
  let! split :=
    match effect_data with
    | JObj members =>
        let settings := default (JObj []) (dict_get "settings" members) in
        let members := dict_pop "settings" members in
        let! effect_data := lift (result_of_option KeyError (dict_get "effects" members)) in
        ret (settings, effect_data)
    | _ => ret (JObj [], effect_data)
    end in
  let! effects :=
    try_except
      (let! items := lift (py_iter (snd split)) in lift (load_effects items))
      invalid_effect_data in
  ret (fst split, effects).

(** Lines 219 to 223: the upload is written to the temporary file and
    processed. *)
Definition process_upload (settings : json) (effects : list LoadableEffect)
    (song : option bytes) (tmpname : string) : M response :=
  let! _ := write_file tmpname [] in
  let! data := lift (result_of_option AttributeError song) in
  let! _ := write_file tmpname data in
  let! args := lift (settings_kwargs_of_json settings) in
  process_song effects tmpname args.

(** [POST /]. [tmpname] is the name [NamedTemporaryFile] picks. *)
Definition process_song_from_file (effects : option string) (song : option bytes)
    (tmpname : string) : M response :=
  let! parsed :=
    try_except (parse_effects effects)
      (fun e => match e with
                | KeyError => Some (raise (HTTPException BAD_REQUEST "Missing effects"))
                | ValueError => Some (raise (HTTPException BAD_REQUEST "Invalid effects"))
                | _ => None
                end) in
  let settings := fst parsed in
  let effects := snd parsed in
  if (5 <? length effects)%nat then
    raise (HTTPException BAD_REQUEST "Too many effects (max is 5)")
  else if (length effects <? 1)%nat then
    raise (HTTPException BAD_REQUEST "Not enough effects (min is 1)")
  else process_upload settings effects song tmpname.

End Pipeline.

(** The beat engine knows nothing of HTTP: what it raises is never an
    [HTTPException]. *)
Definition raises_no_http {A} (r : result A) : Prop :=
  match r with
  | Err (HTTPException _ _) => False
  | _ => True
  end.

Class EngineErrors `{C : Collaborators} : Prop := {
  from_song_no_http : forall content loader, raises_no_http (from_song content loader);
  apply_no_http : forall beats e, raises_no_http (apply beats e);
  save_no_http : forall beats, raises_no_http (save beats)
}.

(** ** Histories of cache operations *)

Inductive cache_op :=
  | Store (k : bytes) (v : string)   (* cache[k] = v *)
  | Lookup (k : bytes).              (* cache[k] *)

Definition run_op (w : world) (op : cache_op) : world :=
  match op with
  | Store k v => snd (cache_setitem k v w)
  | Lookup k => snd (cache_getitem k w)
  end.

Definition run_ops (ops : list cache_op) (w : world) : world :=
  fold_left run_op ops w.

Definition op_key (op : cache_op) : bytes :=
  match op with
  | Store k _ => k
  | Lookup k => k
  end.

Definition touches (op : cache_op) (k : bytes) : bool := bool_decide (op_key op = k).

(** The time of the last operation on [k] in a history given most recent
    first: operations are numbered from 1, and 0 means never. *)
Fixpoint last_access_rev (newest_first : list cache_op) (k : bytes) : nat :=
  match newest_first with
  | [] => O
  | op :: older =>
      if touches op k then length newest_first else last_access_rev older k
  end.

Definition last_access (ops : list cache_op) (k : bytes) : nat :=
  last_access_rev (rev ops) k.

(** [a] was last used before [b]. *)
Definition used_before (ops : list cache_op) (a b : bytes) : Prop :=
  (last_access ops a < last_access ops b)%nat.

(** What holds of the cache in every state the program reaches. *)
Definition cache_ok (c : LRUCache bytes string) : Prop :=
  maxsize c = 8%nat /\ NoDup (keys c) /\ (currsize c <= maxsize c)%nat.

(** The state after the eviction of the entry [(k, v)] that leaves [rest]. *)
Definition evicted (k : bytes) (v : string) (rest : list (bytes * string)) (w : world) : world :=
  {| fs := delete v (fs w);
     cache := {| maxsize := maxsize (cache w); entries := rest |};
     log := log w ++ [CacheEvicting k];
     engine_calls := engine_calls w |}.

(** The state after a lookup of [d] found [path]: the hit is logged and [d]
    is the most recently used key. *)
Definition looked_up (d : bytes) (path : string) (w : world) : world :=
  set_cache (store d path (cache w)) (add_log (CacheHit d) w).

(** A computation that never raises an [HTTPException]. *)
Definition no_http {A} (m : M A) : Prop := forall w, raises_no_http (fst (m w)).

(** ** A test double for the collaborators

    Small stand-ins with which the pipeline runs inside Rocq: a beat analysis
    is a byte string, a song lasts one second per byte, the engine prefixes
    the two BPM bounds to the audio and refuses an empty window, a pickle is
    the analysis behind the protocol marker [0x80], the JSON decoder reads
    one effect descriptor per letter ([!] is malformed), and the downloader
    turns the text of the URL into the audio. *)
Module Toy.

Inductive effect := Reverse | Tail.

Definition mp3_length (content : bytes) : result Q :=
  match content with
  | [] => Err MutagenError
  | _ => Ok (inject_Z (Z.of_nat (length content)))
  end.

Definition analyse (content : bytes) (loader : kwargs) : result bytes :=
  if max_bpm loader <? min_bpm loader then Err (Exception "no tempo in range")
  else Ok (XXH32.byte_of_Z (min_bpm loader) :: XXH32.byte_of_Z (max_bpm loader) :: content).

Definition apply_effect (beats : bytes) (e : effect) : result bytes :=
  match e with
  | Reverse => Ok (rev beats)
  | Tail =>
      match beats with
      | [] => Err (Exception "no beats left")
      | _ :: rest => Ok rest
      end
  end.

Definition dump (beats : bytes) : bytes := x80 :: beats.

Definition load (content : bytes) : result bytes :=
  match content with
  | x80 :: beats => Ok beats
  | _ => Err (Exception "UnpicklingError")
  end.

Definition effect_of (descriptor : json) : result effect :=
  match descriptor with
  | JObj members =>
      match dict_get "type" members with
      | Some (JStr "r") => Ok Reverse
      | Some (JStr "t") => Ok Tail
      | _ => Err TypeError
      end
  | _ => Err TypeError
  end.

Definition decode (text : string) : result json :=
  if String.eqb text "!" then Err ValueError
  else
    Ok (JList (map (fun c => JObj [("type"%string, JStr (String c EmptyString))])
                 (String.list_ascii_of_string text))).

(** The downloader: an empty URL fetches nothing; a URL that starts with
    [!] is fetched to [<base>.mp4], its conversion fails and the [.mp4]
    stays; the text of any other URL ends as the audio at [<base>.mp3]. *)
Definition download (url base : string) (disk : gmap string bytes)
  : result unit * gmap string bytes :=
  if String.eqb url "" then (Err (Exception "DownloadError"), disk)
  else if String.prefix "!" url then
    (Err (Exception "PostProcessingError"),
     <[(base ++ ".mp4")%string := bytes_of_string url]> disk)
  else (Ok tt, <[(base ++ ".mp3")%string := bytes_of_string url]> disk).

#[global] Instance collaborators : Collaborators := {|
  Beats := bytes;
  LoadableEffect := effect;
  MP3_length := mp3_length;
  from_song := analyse;
  apply := apply_effect;
  save := fun beats => Ok beats;
  pickle_dump := dump;
  pickle_load := load;
  load_from_dict := effect_of;
  json_loads := decode;
  youtube_download := download
|}.

(** A song of [n] seconds. *)
Definition song (n : nat) : bytes := repeat x01 n.

(** A cache filled by eight earlier requests, oldest first, with the
    backing files on disk. *)
Definition full_entries : list (bytes * string) :=
  [([x00; x00; x00; x01], "1.mp3_beats.pkl"); ([x00; x00; x00; x02], "2.mp3_beats.pkl");
   ([x00; x00; x00; x03], "3.mp3_beats.pkl"); ([x00; x00; x00; x04], "4.mp3_beats.pkl");
   ([x00; x00; x00; x05], "5.mp3_beats.pkl"); ([x00; x00; x00; x06], "6.mp3_beats.pkl");
   ([x00; x00; x00; x07], "7.mp3_beats.pkl"); ([x00; x00; x00; x08], "8.mp3_beats.pkl")]%string.

Definition full_world : world :=
  {| fs := list_to_map (map (fun kv => (snd kv, dump (fst kv))) full_entries);
     cache := {| maxsize := 8; entries := full_entries |};
     log := [];
     engine_calls := [] |}.

(** Nine songs of different lengths on disk. *)
Definition disk9 : gmap string bytes :=
  list_to_map
    [("s1.mp3", song 1); ("s2.mp3", song 2); ("s3.mp3", song 3); ("s4.mp3", song 4);
     ("s5.mp3", song 5); ("s6.mp3", song 6); ("s7.mp3", song 7); ("s8.mp3", song 8);
     ("s9.mp3", song 9)]%string.

Definition default_window : kwargs := {| min_bpm := 60; max_bpm := 300 |}.

(** The state after the analyses of the given files were asked for in
    turn. *)
Definition analysed (files : list string) (w : world) : world :=
  fold_left (fun w f => snd (find_or_load_beats (C := collaborators) f default_window w))
    files w.

(** The first eight songs have been analysed: the cache is full. *)
Definition after8 : world :=
  analysed ["s1.mp3"; "s2.mp3"; "s3.mp3"; "s4.mp3"; "s5.mp3"; "s6.mp3"; "s7.mp3"; "s8.mp3"]%string
    (initial_world disk9).

(** The backing file of the first song has been overwritten with bytes
    that are no pickle. *)
Definition corrupted : world :=
  set_fs (<["s1.mp3_beats.pkl"%string := [x00; x01]]> (fs after8)) after8.

(** The same cache after the oldest backing file was deleted behind its
    back. *)
Definition full_world_file_gone : world :=
  set_fs (delete "1.mp3_beats.pkl"%string (fs full_world)) full_world.

End Toy.


(** ** Start-up configuration *)

(** Lines 25 to 32: the origins the CORS middleware allows, given the value
    of the environment variable [BEATFUNC_ALL_ORIGINS] ([None] when unset;
    an empty value is false in Python). *)
Definition ORIGINS : list string :=
  ["https://mystifying-heisenberg-1d575a.netlify.com";
   "https://beatmachine.branchpanic.me";
   "https://tbm.branchpanic.me"]%string.

Definition allow_origins (BEATFUNC_ALL_ORIGINS : option string) : list string :=
  match BEATFUNC_ALL_ORIGINS with
  | Some (String _ _) => ["*"%string]
  | _ => ORIGINS
  end.

(** ** Requests and the states the server reaches *)

Inductive request :=
  | PostFile (effects : option string) (song : option bytes) (tmpname : string)
  | PostYoutube (payload : YoutubeSongPayload) (base_filename : string).

Definition handle `{C : Collaborators} (r : request) : M response :=
  match r with
  | PostFile effects song tmpname => process_song_from_file effects song tmpname
  | PostYoutube payload base_filename => process_song_from_youtube payload base_filename
  end.

(** The states of a server run: start-up on some disk, then requests, with
    the disk free to change in between (other processes share it). *)
Inductive reachable `{C : Collaborators} : world -> Prop :=
  | reach_start (disk : gmap string bytes) : reachable (initial_world disk)
  | reach_request (r : request) (w : world) : reachable w -> reachable (snd (handle r w))
  | reach_disk (disk : gmap string bytes) (w : world) : reachable w -> reachable (set_fs disk w).

(** A computation that keeps the cache invariant. *)
Definition keeps_cache_ok {A} (m : M A) : Prop :=
  forall w, cache_ok (cache w) -> cache_ok (cache (snd (m w))).

(** A computation that runs no beat analysis. *)
Definition engine_quiet {A} (m : M A) : Prop :=
  forall w, engine_calls (snd (m w)) = engine_calls w.

(** A computation that runs at most one beat analysis, on [call]. *)
Definition engine_at_most_once {A} (call : string * kwargs) (m : M A) : Prop :=
  forall w, engine_calls (snd (m w)) = engine_calls w \/
            engine_calls (snd (m w)) = engine_calls w ++ [call].





(** * Properties *)

(** ** The list model of the cache *)
Section LRUCacheFacts.
Context {K V : Type} `{EqDecision K}.
Implicit Types (k : K) (v : V) (l : list (K * V)).

Lemma assoc_None k l : assoc k l = None <-> k ∉ map fst l.
Proof.
  induction l as [|[k' v'] l IH]; simpl.
  - split; [intros _; apply not_elem_of_nil | done].
  - destruct (decide (k' = k)) as [->|Hne].
    + split; [done | intros Hn; exfalso; apply Hn; left].
    + rewrite IH, not_elem_of_cons.
      split; [intros Hn; split; [congruence | exact Hn] | tauto].
Qed.

Lemma assoc_Some_elem k v l : assoc k l = Some v -> (k, v) ∈ l.
Proof.
  induction l as [|[k' v'] l IH]; simpl; [done|].
  destruct (decide (k' = k)) as [->|Hne].
  - intros Hv. injection Hv as ->. left.
  - intros Hl. right. auto.
Qed.

Lemma assoc_is_Some k l : is_Some (assoc k l) <-> k ∈ map fst l.
Proof.
  destruct (assoc k l) eqn:Ha.
  - split; [intros _ | eauto].
    apply assoc_Some_elem in Ha.
    apply (list_elem_of_fmap_2 fst) in Ha. exact Ha.
  - apply assoc_None in Ha. split; [intros [? [=]] | done].
Qed.

Lemma keys_remove_key k l :
  map fst (remove_key k l) = filter (fun k' => k' <> k) (map fst l).
Proof.
  induction l as [|[k' v'] l IH]; simpl; [done|].
  destruct (decide (k' = k)) as [->|Hne].
  - rewrite filter_cons_False by (simpl; tauto). done.
  - rewrite filter_cons_True by done. simpl. by rewrite IH.
Qed.

Lemma remove_key_absent k l : k ∉ map fst l -> remove_key k l = l.
Proof.
  induction l as [|[k' v'] l IH]; simpl; [done|].
  rewrite not_elem_of_cons. intros [Hne Hn].
  destruct (decide (k' = k)); [congruence|]. by rewrite IH.
Qed.

Lemma not_elem_remove_key k l : k ∉ map fst (remove_key k l).
Proof.
  rewrite keys_remove_key. rewrite list_elem_of_filter. tauto.
Qed.

Lemma elem_remove_key k k' l :
  k' ∈ map fst (remove_key k l) <-> k' <> k /\ k' ∈ map fst l.
Proof. rewrite keys_remove_key, list_elem_of_filter. done. Qed.

Lemma NoDup_remove_key k l : NoDup (map fst l) -> NoDup (map fst (remove_key k l)).
Proof. intros Hnd. rewrite keys_remove_key. by apply NoDup_filter. Qed.

Lemma length_remove_key_le k l : (length (remove_key k l) <= length l)%nat.
Proof.
  induction l as [|[k' v'] l IH]; simpl; [lia|].
  destruct (decide (k' = k)); simpl; lia.
Qed.

Lemma length_remove_key_present k l :
  NoDup (map fst l) -> k ∈ map fst l -> S (length (remove_key k l)) = length l.
Proof.
  induction l as [|[k' v'] l IH]; simpl.
  - intros _ Hin. by apply elem_of_nil in Hin.
  - rewrite NoDup_cons. intros [Hnot Hnd] Hin.
    destruct (decide (k' = k)) as [->|Hne].
    + by rewrite remove_key_absent.
    + simpl. f_equal. apply IH; [done|].
      apply elem_of_cons in Hin as [->|Hin]; [congruence | done].
Qed.

Lemma assoc_remove_key_ne k k' l : k <> k' -> assoc k' (remove_key k l) = assoc k' l.
Proof.
  intros Hne. induction l as [|[k0 v0] l IH]; simpl; [done|].
  destruct (decide (k0 = k)) as [->|Hne0].
  - destruct (decide (k = k')); [congruence | done].
  - simpl. destruct (decide (k0 = k')); [done | exact IH].
Qed.

Lemma assoc_app k l1 l2 :
  assoc k (l1 ++ l2) = match assoc k l1 with Some v => Some v | None => assoc k l2 end.
Proof.
  induction l1 as [|[k0 v0] l1 IH]; simpl; [done|].
  destruct (decide (k0 = k)); [done | exact IH].
Qed.

Lemma keys_store k v (c : LRUCache K V) :
  keys (store k v c) = filter (fun k' => k' <> k) (keys c) ++ [k].
Proof. unfold keys, store; simpl. rewrite map_app, keys_remove_key. done. Qed.

Lemma NoDup_keys_store k v (c : LRUCache K V) :
  NoDup (keys c) -> NoDup (keys (store k v c)).
Proof.
  intros Hnd. rewrite keys_store. apply NoDup_app. split_and!.
  - by apply NoDup_filter.
  - intros x Hx Hx'. apply list_elem_of_filter in Hx as [Hne _].
    apply list_elem_of_singleton in Hx'. done.
  - apply NoDup_singleton.
Qed.

Lemma contains_true k (c : LRUCache K V) : contains k c = true <-> k ∈ keys c.
Proof.
  unfold contains, keys. rewrite <- assoc_is_Some.
  destruct (assoc k (entries c)) as [v|].
  - split; [eauto | done].
  - split; [done | intros [v Hv]; discriminate Hv].
Qed.

Lemma contains_false k (c : LRUCache K V) : contains k c = false <-> k ∉ keys c.
Proof.
  rewrite <- contains_true. destruct (contains k c).
  - split; [done | intros Hn; exfalso; by apply Hn].
  - split; [intros _ Hn; discriminate Hn | done].
Qed.

Lemma last_keys_store k v (c : LRUCache K V) : last (keys (store k v c)) = Some k.
Proof. rewrite keys_store. apply last_snoc. Qed.

Lemma contains_store k v (c : LRUCache K V) : contains k (store k v c) = true.
Proof.
  apply contains_true. rewrite keys_store. apply elem_of_app. right.
  apply list_elem_of_singleton. done.
Qed.

End LRUCacheFacts.

(** ** Sequencing *)

Lemma bind_ok {A B} (m : M A) (f : A -> M B) w a w' :
  m w = (Ok a, w') -> bind m f w = f a w'.
Proof. intros Hm. unfold bind. by rewrite Hm. Qed.

Lemma bind_err {A B} (m : M A) (f : A -> M B) w e w' :
  m w = (Err e, w') -> bind m f w = (Err e, w').
Proof. intros Hm. unfold bind. by rewrite Hm. Qed.

(** ** The cache operations on the process state *)

Lemma popitem_cons w k v rest :
  entries (cache w) = (k, v) :: rest ->
  popitem w = (Ok tt, evicted k v rest w).
Proof.
  intros He. unfold popitem, bind, super_popitem, lru_popitem. rewrite He.
  unfold logger, os_path_isfile, os_remove, ret; simpl.
  destruct (fs w !! v) as [c|] eqn:Hv; simpl.
  - rewrite Hv. reflexivity.
  - unfold evicted. rewrite delete_id by exact Hv. reflexivity.
Qed.

Lemma popitem_empty w :
  entries (cache w) = [] -> popitem w = (Err KeyError, w).
Proof.
  intros He. unfold popitem, bind, super_popitem, lru_popitem. by rewrite He.
Qed.

Lemma make_room_enough fuel w :
  (currsize (cache w) + 1 <= maxsize (cache w))%nat ->
  make_room fuel w = (Ok tt, w).
Proof.
  intros Hle. destruct fuel as [|fuel]; simpl; [done|].
  destruct (Nat.ltb_spec (maxsize (cache w)) (currsize (cache w) + 1)); [lia | done].
Qed.

Lemma make_room_full fuel w k v rest :
  entries (cache w) = (k, v) :: rest ->
  currsize (cache w) = maxsize (cache w) ->
  make_room (S fuel) w = (Ok tt, evicted k v rest w).
Proof.
  intros He Hfull. simpl.
  destruct (Nat.ltb_spec (maxsize (cache w)) (currsize (cache w) + 1)); [|lia].
  unfold bind. rewrite (popitem_cons _ _ _ _ He).
  apply make_room_enough. unfold currsize in *. rewrite He in Hfull. simpl in *. lia.
Qed.

(** With room for it, or when it is present already, a key is stored
    without an eviction. *)
Lemma cache_setitem_no_eviction k v w :
  (1 <= maxsize (cache w))%nat ->
  contains k (cache w) = true \/ (currsize (cache w) < maxsize (cache w))%nat ->
  cache_setitem k v w = (Ok tt, set_cache (store k v (cache w)) w).
Proof.
  intros Hmax Hcase. unfold cache_setitem.
  destruct (Nat.ltb_spec (maxsize (cache w)) 1); [lia|].
  unfold bind. destruct (contains k (cache w)) eqn:Hc; [done|].
  destruct Hcase as [?|Hlt]; [done|].
  rewrite make_room_enough by lia. done.
Qed.

(** A new key stored in a full cache takes the place of the first entry. *)
Lemma cache_setitem_eviction k v w k0 v0 rest :
  (1 <= maxsize (cache w))%nat ->
  contains k (cache w) = false ->
  currsize (cache w) = maxsize (cache w) ->
  entries (cache w) = (k0, v0) :: rest ->
  cache_setitem k v w
  = (Ok tt, set_cache {| maxsize := maxsize (cache w); entries := rest ++ [(k, v)] |}
              (evicted k0 v0 rest w)).
Proof.
  intros Hmax Hc Hfull He. unfold cache_setitem.
  destruct (Nat.ltb_spec (maxsize (cache w)) 1); [lia|].
  unfold bind. rewrite Hc. rewrite (make_room_full _ _ _ _ _ He Hfull).
  unfold set_cache, store; simpl. do 4 f_equal.
  apply remove_key_absent. apply contains_false in Hc.
  unfold keys in Hc. rewrite He in Hc. simpl in Hc.
  apply not_elem_of_cons in Hc as [_ Hc]. exact Hc.
Qed.

Lemma cache_getitem_hit k v w :
  assoc k (entries (cache w)) = Some v ->
  cache_getitem k w = (Ok v, set_cache (store k v (cache w)) w).
Proof. intros Ha. unfold cache_getitem, getitem. by rewrite Ha. Qed.

Lemma cache_getitem_miss k w :
  contains k (cache w) = false -> cache_getitem k w = (Err KeyError, w).
Proof.
  unfold contains, cache_getitem, getitem.
  destruct (assoc k (entries (cache w))); [discriminate | done].
Qed.

(** *** The invariant *)

Lemma cache_ok_empty : cache_ok (empty_cache 8).
Proof. unfold cache_ok, keys, currsize; simpl. split_and!; [done | constructor | lia]. Qed.

Lemma cache_ok_store k v c : contains k c = true \/ (currsize c < maxsize c)%nat ->
  cache_ok c -> cache_ok (store k v c).
Proof.
  intros Hcase (Hmax & Hnd & Hle). split_and!; [done | by apply NoDup_keys_store |].
  unfold currsize, store in *; simpl. rewrite length_app; simpl.
  destruct Hcase as [Hc|Hlt].
  - apply contains_true in Hc.
    pose proof (length_remove_key_present k (entries c) Hnd Hc). lia.
  - pose proof (length_remove_key_le k (entries c)). lia.
Qed.

Lemma cache_ok_tail_snoc c k0 v0 rest k v :
  cache_ok c -> entries c = (k0, v0) :: rest -> contains k c = false ->
  cache_ok {| maxsize := maxsize c; entries := rest ++ [(k, v)] |}.
Proof.
  intros (Hmax & Hnd & Hle) He Hc. apply contains_false in Hc.
  unfold keys, currsize in *. rewrite He in *. simpl in *.
  apply NoDup_cons in Hnd as [_ Hnd]. apply not_elem_of_cons in Hc as [_ Hc].
  split_and!; unfold keys, currsize; simpl; [done | |].
  - rewrite map_app. apply NoDup_app. split_and!; [done | | apply NoDup_singleton].
    intros x Hx Hx'. apply list_elem_of_singleton in Hx'. simpl in Hx'. by subst.
  - rewrite length_app. simpl. lia.
Qed.

(** [cache[k] = v] never fails on the module-level cache, keeps the
    invariant, leaves the key most recent and bound to [v], runs no beat
    analysis, and changes the disk at most by deleting the backing file of
    the entry that was first. *)
Lemma cache_setitem_ok k v w :
  cache_ok (cache w) ->
  exists w', cache_setitem k v w = (Ok tt, w') /\ cache_ok (cache w')
             /\ last (keys (cache w')) = Some k
             /\ assoc k (entries (cache w')) = Some v
             /\ engine_calls w' = engine_calls w
             /\ (fs w' = fs w \/
                 exists k0 v0 rest, entries (cache w) = (k0, v0) :: rest
                                    /\ contains k (cache w) = false
                                    /\ fs w' = delete v0 (fs w)).
Proof.
  intros Hok. pose proof Hok as (Hmax & Hnd & Hle).
  assert (Hm1 : (1 <= maxsize (cache w))%nat) by lia.
  assert (Hstored : forall l, assoc k (remove_key k l ++ [(k, v)]) = Some v).
  { intros l. rewrite assoc_app, (proj2 (assoc_None _ _) (not_elem_remove_key _ _)).
    simpl. by rewrite decide_True. }
  destruct (contains k (cache w)) eqn:Hc;
    [| destruct (decide (currsize (cache w) = maxsize (cache w))) as [Hfull|Hnf]].
  - eexists. rewrite cache_setitem_no_eviction by auto.
    split_and!; [done | by apply cache_ok_store; auto | apply last_keys_store
                | apply Hstored | done | by left].
  - destruct (entries (cache w)) as [|[k0 v0] rest] eqn:He.
    { unfold currsize in Hfull. rewrite He in Hfull. simpl in Hfull. lia. }
    eexists. rewrite (cache_setitem_eviction _ _ _ _ _ _ Hm1 Hc Hfull He).
    split_and!; [done | by eapply cache_ok_tail_snoc | | | done
                | right; by exists k0, v0, rest].
    + unfold keys; simpl. rewrite map_app. apply last_snoc.
    + simpl. rewrite assoc_app.
      apply contains_false in Hc. unfold keys in Hc. rewrite He in Hc. simpl in Hc.
      apply not_elem_of_cons in Hc as [_ Hc].
      rewrite (proj2 (assoc_None _ _) Hc). simpl. by rewrite decide_True.
  - eexists. rewrite cache_setitem_no_eviction by (auto; right; lia).
    split_and!; [done | apply cache_ok_store; [right; lia | done]
                | apply last_keys_store | apply Hstored | done | by left].
Qed.

Lemma cache_getitem_ok k w :
  cache_ok (cache w) -> cache_ok (cache (snd (cache_getitem k w))).
Proof.
  intros Hok. unfold cache_getitem, getitem.
  destruct (assoc k (entries (cache w))) as [v|] eqn:Ha; simpl; [|done].
  apply (cache_ok_store k v); [|done].
  left. unfold contains. by rewrite Ha.
Qed.

(** ** Recency order and histories *)

Lemma last_access_rev_le l k : (last_access_rev l k <= length l)%nat.
Proof.
  induction l as [|op l IH]; simpl; [lia|].
  destruct (touches op k); lia.
Qed.

Lemma last_access_le ops k : (last_access ops k <= length ops)%nat.
Proof.
  unfold last_access. pose proof (last_access_rev_le (rev ops) k) as Hle.
  by rewrite length_rev in Hle.
Qed.

Lemma last_access_snoc ops op k :
  last_access (ops ++ [op]) k
  = if touches op k then S (length ops) else last_access ops k.
Proof.
  unfold last_access. rewrite rev_app_distr. simpl.
  by rewrite length_rev.
Qed.

Lemma last_access_snoc_key ops op :
  last_access (ops ++ [op]) (op_key op) = S (length ops).
Proof.
  rewrite last_access_snoc. unfold touches. by rewrite bool_decide_eq_true_2.
Qed.

Lemma last_access_snoc_other ops op k :
  op_key op <> k -> last_access (ops ++ [op]) k = last_access ops k.
Proof.
  intros Hne. rewrite last_access_snoc. unfold touches.
  by rewrite bool_decide_eq_false_2.
Qed.

Lemma run_ops_snoc ops op w : run_ops (ops ++ [op]) w = run_op (run_ops ops w) op.
Proof. unfold run_ops. by rewrite fold_left_app. Qed.

Section Sorted.
Context {A : Type}.

Lemma StronglySorted_filter (R : relation A) (P : A -> Prop) `{!forall x, Decision (P x)} l :
  StronglySorted R l -> StronglySorted R (filter P l).
Proof.
  induction 1 as [|a l Hs IH Hall]; [constructor|].
  destruct (decide (P a)).
  - rewrite filter_cons_True by done. constructor; [done|].
    apply Forall_forall. intros x Hx. apply list_elem_of_filter in Hx as [_ Hx].
    rewrite Forall_forall in Hall. auto.
  - by rewrite filter_cons_False.
Qed.

Lemma StronglySorted_weaken (R R' : relation A) l :
  (forall a b, a ∈ l -> b ∈ l -> R a b -> R' a b) ->
  StronglySorted R l -> StronglySorted R' l.
Proof.
  intros Himp Hs. induction Hs as [|a l Hs IH Hall]; [constructor|].
  constructor.
  - apply IH. intros x y Hx Hy. apply Himp; by right.
  - apply Forall_forall. intros x Hx. rewrite Forall_forall in Hall.
    apply Himp; [left | by right | auto].
Qed.
End Sorted.

(** An operation on [k] moves [k] behind all others and leaves the order of
    the others as it was. *)
Lemma sorted_move_to_end ops op (l : list bytes) :
  StronglySorted (used_before ops) l ->
  StronglySorted (used_before (ops ++ [op]))
    (filter (fun k' => k' <> op_key op) l ++ [op_key op]).
Proof.
  intros Hs. apply StronglySorted_app. split_and!.
  - intros a b Ha Hb. apply list_elem_of_filter in Ha as [Hne _].
    apply list_elem_of_singleton in Hb as ->. unfold used_before.
    rewrite last_access_snoc_key, last_access_snoc_other by done.
    pose proof (last_access_le ops a). lia.
  - apply (StronglySorted_weaken (used_before ops)).
    + intros a b Ha Hb. apply list_elem_of_filter in Ha as [Ha _].
      apply list_elem_of_filter in Hb as [Hb _]. unfold used_before.
      by rewrite (last_access_snoc_other ops op a), (last_access_snoc_other ops op b).
    + by apply StronglySorted_filter.
  - repeat constructor.
Qed.

Lemma sorted_untouched ops op (l : list bytes) :
  op_key op ∉ l ->
  StronglySorted (used_before ops) l ->
  StronglySorted (used_before (ops ++ [op])) l.
Proof.
  intros Hn. apply StronglySorted_weaken. intros a b Ha Hb. unfold used_before.
  rewrite (last_access_snoc_other ops op a), (last_access_snoc_other ops op b);
    [done | |]; intros Heq; subst; done.
Qed.

Lemma filter_absent (k : bytes) (l : list bytes) :
  k ∉ l -> filter (fun k' => k' <> k) l = l.
Proof.
  induction l as [|a l IH]; [done|].
  rewrite not_elem_of_cons. intros [Hne Hn].
  rewrite filter_cons_True by done. by rewrite IH.
Qed.

(** After any history, the cache satisfies its invariant and lists its
    keys from the least to the most recently used. *)
Lemma history_invariant ops disk :
  let w := run_ops ops (initial_world disk) in
  cache_ok (cache w) /\ StronglySorted (used_before ops) (keys (cache w)).
Proof.
  induction ops as [|op ops IH] using rev_ind; simpl.
  - split; [apply cache_ok_empty | constructor].
  - rewrite run_ops_snoc. simpl in IH. destruct IH as [Hok Hs].
    set (w := run_ops ops (initial_world disk)) in *.
    pose proof Hok as (Hmax & Hnd & Hle).
    assert (Hm1 : (1 <= maxsize (cache w))%nat) by lia.
    destruct op as [k v|k]; simpl.
    + destruct (contains k (cache w)) eqn:Hc;
        [| destruct (decide (currsize (cache w) = maxsize (cache w))) as [Hfull|Hnf]].
      * rewrite cache_setitem_no_eviction by auto. simpl. split.
        -- apply cache_ok_store; auto.
        -- rewrite keys_store. apply (sorted_move_to_end ops (Store k v)), Hs.
      * destruct (entries (cache w)) as [|[k0 v0] rest] eqn:He.
        { unfold currsize in Hfull. rewrite He in Hfull. simpl in Hfull. lia. }
        rewrite (cache_setitem_eviction _ _ _ _ _ _ Hm1 Hc Hfull He). simpl. split.
        -- by eapply cache_ok_tail_snoc.
        -- apply contains_false in Hc. unfold keys in *. rewrite He in *. simpl in *.
           apply not_elem_of_cons in Hc as [_ Hc].
           apply StronglySorted_inv in Hs as [Hs _].
           rewrite map_app. simpl. rewrite <- (filter_absent k (map fst rest)) by done.
           apply (sorted_move_to_end ops (Store k v)), Hs.
      * rewrite cache_setitem_no_eviction by (auto; right; lia). simpl. split.
        -- apply cache_ok_store; [right; lia | done].
        -- rewrite keys_store. apply (sorted_move_to_end ops (Store k v)), Hs.
    + split; [by apply cache_getitem_ok|].
      destruct (assoc k (entries (cache w))) as [v|] eqn:Ha.
      * rewrite (cache_getitem_hit _ _ _ Ha). simpl.
        rewrite keys_store. apply (sorted_move_to_end ops (Lookup k)), Hs.
      * rewrite cache_getitem_miss by (unfold contains; by rewrite Ha). simpl.
        apply sorted_untouched; [|done]. simpl. by apply assoc_None.
Qed.

(** ** Capacity and eviction *)

(** C3. After every sequence of cache operations from start-up the cache
    holds at most 8 entries. A store that does not exceed the capacity (the
    key is present, or fewer than 8 entries are held) evicts nothing. A
    store of a new key into a cache of 8 entries evicts exactly one entry,
    the one at the head of the recency order, which of all keys held is the
    one whose last use in the history is the oldest; its backing file is
    removed from the disk, and the other seven entries stay, followed by
    the new one. *)
Theorem cache_bounded_lru_eviction (ops : list cache_op) (disk : gmap string bytes) :
  let w := run_ops ops (initial_world disk) in
  (currsize (cache w) <= 8)%nat /\
  forall k v,
    (contains k (cache w) = true \/ (currsize (cache w) < 8)%nat ->
       cache_setitem k v w = (Ok tt, set_cache (store k v (cache w)) w)) /\
    (contains k (cache w) = false -> currsize (cache w) = 8%nat ->
       exists k0 v0 rest,
         entries (cache w) = (k0, v0) :: rest /\
         (forall k', k' ∈ keys (cache w) -> k' <> k0 -> used_before ops k0 k') /\
         exists w',
           cache_setitem k v w = (Ok tt, w') /\
           entries (cache w') = rest ++ [(k, v)] /\
           fs w' = delete v0 (fs w)).
Proof.
  intros w. destruct (history_invariant ops disk) as [Hok Hs]. fold w in Hok, Hs.
  pose proof Hok as (Hmax & Hnd & Hle).
  split; [lia|]. intros k v. split.
  - intros Hcase. apply cache_setitem_no_eviction; [lia|].
    destruct Hcase; [by left | right; lia].
  - intros Hc Hfull.
    destruct (entries (cache w)) as [|[k0 v0] rest] eqn:He.
    { unfold currsize in Hfull. rewrite He in Hfull. discriminate Hfull. }
    exists k0, v0, rest. split; [done|]. split.
    + intros k' Hk' Hne. unfold keys in Hs, Hk'. rewrite He in Hs, Hk'. simpl in *.
      apply StronglySorted_inv in Hs as [_ Hall]. rewrite Forall_forall in Hall.
      apply elem_of_cons in Hk' as [->|Hk']; [done|]. by apply Hall.
    + eexists. rewrite (cache_setitem_eviction k v w k0 v0 rest); [|lia|done|lia|done].
      done.
Qed.

(** C4. When the cache evicts its least recently used entry, [popitem]
    returns normally whether or not the backing file still exists;
    afterwards the file is not on disk, the evicted key is not in the
    cache and a lookup of it raises [KeyError]; when the file was gone
    already, the disk is left as it was. The same holds after a store
    that evicts. *)
Theorem eviction_removes_entry_and_file (w : world) (k : bytes) (v : string)
    (rest : list (bytes * string)) :
  NoDup (keys (cache w)) ->
  entries (cache w) = (k, v) :: rest ->
  (exists w',
     popitem w = (Ok tt, w') /\
     fs w' !! v = None /\
     contains k (cache w') = false /\
     cache_getitem k w' = (Err KeyError, w') /\
     (fs w !! v = None -> fs w' = fs w)) /\
  (forall k' v',
     contains k' (cache w) = false -> currsize (cache w) = maxsize (cache w) ->
     exists w',
       cache_setitem k' v' w = (Ok tt, w') /\
       fs w' !! v = None /\
       contains k (cache w') = false /\
       cache_getitem k w' = (Err KeyError, w')).
Proof.
  intros Hnd He.
  assert (Hk : k ∉ map fst rest).
  { unfold keys in Hnd. rewrite He in Hnd. simpl in Hnd. by apply NoDup_cons in Hnd as [? _]. }
  split.
  - exists (evicted k v rest w). rewrite (popitem_cons _ _ _ _ He).
    assert (Hc : contains k (cache (evicted k v rest w)) = false).
    { apply contains_false. exact Hk. }
    split_and!; [done | apply lookup_delete_eq | done | by apply cache_getitem_miss |].
    intros Hgone. simpl. by apply delete_id.
  - intros k' v' Hc' Hfull.
    assert (Hm1 : (1 <= maxsize (cache w))%nat).
    { rewrite <- Hfull. unfold currsize. rewrite He. simpl. lia. }
    eexists. rewrite (cache_setitem_eviction k' v' w k v rest Hm1 Hc' Hfull He).
    assert (Hne : k' <> k).
    { intros ->. apply contains_false in Hc'. apply Hc'. unfold keys. rewrite He. left. }
    assert (Hc : contains k {| maxsize := maxsize (cache w); entries := rest ++ [(k', v')] |}
                 = false).
    { apply contains_false. unfold keys; simpl. rewrite map_app. simpl.
      intros Hin. apply elem_of_app in Hin as [Hin|Hin]; [done|].
      apply list_elem_of_singleton in Hin. congruence. }
    split_and!; [done | apply lookup_delete_eq | done | by apply cache_getitem_miss].
Qed.

Lemma eviction_removes_entry_and_file_witness :
  NoDup (keys (cache Toy.full_world_file_gone)) /\
  entries (cache Toy.full_world_file_gone)
  = ([x00; x00; x00; x01], "1.mp3_beats.pkl"%string) :: tail Toy.full_entries /\
  fs Toy.full_world_file_gone !! "1.mp3_beats.pkl"%string = None /\
  exists w',
    popitem Toy.full_world_file_gone = (Ok tt, w') /\
    fs w' !! "1.mp3_beats.pkl"%string = None /\
    contains [x00; x00; x00; x01] (cache w') = false /\
    cache_getitem [x00; x00; x00; x01] w' = (Err KeyError, w') /\
    (fs Toy.full_world_file_gone !! "1.mp3_beats.pkl"%string = None ->
     fs w' = fs Toy.full_world_file_gone).
Proof.
  assert (Hnd : NoDup (keys (cache Toy.full_world_file_gone))).
  { apply (bool_decide_unpack _). vm_compute. exact I. }
  split_and!; [exact Hnd | reflexivity | vm_compute; reflexivity |].
  exact (proj1 (eviction_removes_entry_and_file Toy.full_world_file_gone
                  [x00; x00; x00; x01] "1.mp3_beats.pkl" (tail Toy.full_entries)
                  Hnd eq_refl)).
Defined.

(** ** The BPM window *)

Example window_default : _settings_to_kwargs [] = Ok (Kwargs 60 300, []).
Proof. reflexivity. Qed.

Example window_suggested :
  _settings_to_kwargs [("suggested_bpm"%string, JInt 120)]
  = Ok (Kwargs 105 135, [("suggested_bpm"%string, JInt 120)]).
Proof. reflexivity. Qed.

Example window_suggested_drift :
  _settings_to_kwargs [("drift"%string, JInt 5); ("suggested_bpm"%string, JInt 120)]
  = Ok (Kwargs 115 125, [("suggested_bpm"%string, JInt 120)]).
Proof. reflexivity. Qed.

Example window_drift_alone :
  _settings_to_kwargs [("drift"%string, JInt 5)]
  = Ok (Kwargs 60 300, [("drift"%string, JInt 5)]).
Proof. reflexivity. Qed.

Example window_not_a_number :
  _settings_to_kwargs [("suggested_bpm"%string, JStr "fast")] = Err TypeError.
Proof. reflexivity. Qed.

(** C8. For every settings dict: without [suggested_bpm] the window is
    [60, 300] and the dict is left alone; with an integer [suggested_bpm]
    of [s] the window is [s - 15, s + 15] when [drift] is absent and
    [s - d, s + d] when [drift] is the integer [d]. *)
Theorem settings_bpm_window (settings : dict) :
  (dict_get "suggested_bpm" settings = None ->
   _settings_to_kwargs settings = Ok ({| min_bpm := 60; max_bpm := 300 |}, settings)) /\
  (forall s : Z,
     dict_get "suggested_bpm" settings = Some (JInt s) ->
     (dict_get "drift" settings = None ->
      _settings_to_kwargs settings
      = Ok ({| min_bpm := s - 15; max_bpm := s + 15 |}, dict_pop "drift" settings)) /\
     (forall d : Z,
        dict_get "drift" settings = Some (JInt d) ->
        _settings_to_kwargs settings
        = Ok ({| min_bpm := s - d; max_bpm := s + d |}, dict_pop "drift" settings))).
Proof.
  unfold _settings_to_kwargs. split.
  - intros ->. reflexivity.
  - intros s ->. split.
    + intros ->. reflexivity.
    + intros d ->. reflexivity.
Qed.

(** ** The fingerprint *)

Example xxh32_empty : XXH32.xxh32 [] = 0x02CC5D05.
Proof. vm_compute. reflexivity. Qed.

Example xxh32_a : XXH32.xxh32 (bytes_of_string "a") = 0x550D7456.
Proof. vm_compute. reflexivity. Qed.

Example xxh32_abc : XXH32.xxh32 (bytes_of_string "abc") = 0x32D153FF.
Proof. vm_compute. reflexivity. Qed.

Example xxh32_spam :
  XXH32.xxh32 (bytes_of_string "Nobody inspects the spammish repetition") = 0xE2293B2F.
Proof. vm_compute. reflexivity. Qed.

Example xxh32_spam_streamed :
  XXH32.digest
    (XXH32.update (XXH32.update XXH32.init (bytes_of_string "Nobody inspects"))
       (bytes_of_string " the spammish repetition"))
  = [xe2; x29; x3b; x2f].
Proof. vm_compute. reflexivity. Qed.

Lemma u32_range x : 0 <= XXH32.u32 x < 2 ^ 32.
Proof. unfold XXH32.u32. apply Z.mod_pos_bound. lia. Qed.

Lemma lxor_range a b : 0 <= a < 2 ^ 32 -> 0 <= b < 2 ^ 32 -> 0 <= Z.lxor a b < 2 ^ 32.
Proof.
  intros [Ha Ha'] [Hb Hb']. split; [by apply Z.lxor_nonneg|].
  destruct (decide (Z.lxor a b = 0)) as [->|Hnz]; [lia|].
  assert (Hpos : 0 < Z.lxor a b) by (pose proof (proj2 (Z.lxor_nonneg a b) (conj (fun _ => Hb) (fun _ => Ha))); lia).
  apply Z.log2_lt_pow2; [done|].
  pose proof (Z.log2_lxor a b Ha Hb) as Hl.
  assert (Z.log2 a < 32).
  { destruct (decide (a = 0)) as [->|?]; [simpl; lia|]. apply Z.log2_lt_pow2; lia. }
  assert (Z.log2 b < 32).
  { destruct (decide (b = 0)) as [->|?]; [simpl; lia|]. apply Z.log2_lt_pow2; lia. }
  lia.
Qed.

Lemma shiftr_range a n : 0 <= n -> 0 <= a < 2 ^ 32 -> 0 <= Z.shiftr a n < 2 ^ 32.
Proof.
  intros Hn [Ha Ha']. rewrite Z.shiftr_div_pow2 by done. split.
  - apply Z.div_pos; [done | by apply Z.pow_pos_nonneg].
  - apply Z.le_lt_trans with a; [|done].
    apply Z.div_le_upper_bound; [by apply Z.pow_pos_nonneg|].
    assert (1 <= 2 ^ n) by (pose proof (Z.pow_pos_nonneg 2 n); lia). nia.
Qed.

Lemma avalanche_range h : 0 <= h < 2 ^ 32 -> 0 <= XXH32.avalanche h < 2 ^ 32.
Proof.
  intros Hh. unfold XXH32.avalanche.
  apply lxor_range; [apply u32_range | apply shiftr_range; [lia | apply u32_range]].
Qed.

Lemma finalize_bytes_range h p : 0 <= h < 2 ^ 32 -> 0 <= XXH32.finalize_bytes h p < 2 ^ 32.
Proof.
  revert h. induction p as [|b p IH]; intros h Hh; simpl; [done|].
  apply IH, u32_range.
Qed.

Lemma finalize_words_range n h p :
  0 <= h < 2 ^ 32 -> 0 <= XXH32.finalize_words n h p < 2 ^ 32.
Proof.
  revert h p. induction n as [|n IH]; intros h p Hh; simpl.
  - by apply finalize_bytes_range.
  - apply IH, u32_range.
Qed.

(** The hash is a 32-bit value. *)
Lemma intdigest_range s : 0 <= XXH32.intdigest s < 2 ^ 32.
Proof.
  unfold XXH32.intdigest. apply avalanche_range, finalize_words_range, u32_range.
Qed.

Lemma byte_val_of_Z z : XXH32.byte_val (XXH32.byte_of_Z z) = z mod 256.
Proof.
  unfold XXH32.byte_val, XXH32.byte_of_Z.
  pose proof (Z.mod_pos_bound z 256 ltac:(lia)) as Hr.
  destruct (Byte.of_N (Z.to_N (z mod 256))) as [b|] eqn:Hb; simpl.
  - apply Byte.to_of_N in Hb. rewrite Hb. lia.
  - apply Byte.of_N_None_iff in Hb. lia.
Qed.

(** The four bytes of [digest] spell the value of [intdigest]. *)
Lemma digest_value_digest s : XXH32.digest_value (XXH32.digest s) = XXH32.intdigest s.
Proof.
  pose proof (intdigest_range s) as Hr.
  unfold XXH32.digest_value, XXH32.digest. simpl.
  rewrite !byte_val_of_Z, !Z.shiftr_div_pow2 by lia.
  change (2 ^ 24) with 16777216. change (2 ^ 16) with 65536. change (2 ^ 8) with 256.
  change (2 ^ 32) with 4294967296 in Hr.
  Z.div_mod_to_equations. lia.
Qed.

(** *** The read loop *)

Lemma read_blocks_fold fuel h file :
  read_blocks fuel h file = fold_left XXH32.update (blocks fuel file) h.
Proof.
  revert h file. induction fuel as [|fuel IH]; intros h file; simpl; [done|].
  destruct (take 512 file) as [|b block] eqn:Ht; simpl; [done|]. apply IH.
Qed.

Lemma take_nil_inv (file : bytes) : take 512 file = [] -> file = [].
Proof. destruct file; [done | discriminate]. Qed.

(** With enough turns the loop reads the whole file. *)
Lemma concat_blocks fuel (file : bytes) :
  (length file <= fuel)%nat -> concat (blocks fuel file) = file.
Proof.
  revert file. induction fuel as [|fuel IH]; intros file Hlen; simpl.
  - destruct file; [done | simpl in Hlen; lia].
  - destruct (take 512 file) as [|b block] eqn:Ht; simpl.
    + symmetry. by apply take_nil_inv.
    + transitivity ((b :: block) ++ drop 512 file);
        [| rewrite <- Ht; apply take_drop].
      simpl. do 2 f_equal. apply IH.
      rewrite length_drop. destruct file; [discriminate Ht | simpl in *; lia].
Qed.

Lemma blocks_nonempty fuel (file : bytes) :
  Forall (fun b => (1 <= length b <= 512)%nat) (blocks fuel file).
Proof.
  revert file. induction fuel as [|fuel IH]; intros file; simpl; [constructor|].
  destruct (take 512 file) as [|b block] eqn:Ht; [constructor|].
  constructor; [|apply IH].
  rewrite <- Ht, length_take. destruct file as [|b0 file]; [discriminate Ht|].
  change (length (b0 :: file)) with (S (length file)). lia.
Qed.

(** Every block but the last is a full one. *)
Lemma blocks_full fuel (file : bytes) i b :
  blocks fuel file !! i = Some b -> (S i < length (blocks fuel file))%nat ->
  length b = 512%nat.
Proof.
  revert file i. induction fuel as [|fuel IH]; intros file i; simpl; [done|].
  destruct (take 512 file) as [|b0 block] eqn:Ht; [done|].
  destruct i as [|i]; simpl.
  - intros [= <-] Hlt. rewrite <- Ht, length_take.
    destruct fuel as [|fuel]; simpl in Hlt; [lia|].
    destruct (take 512 (drop 512 file)) as [|b1 block1] eqn:Ht1; [simpl in Hlt; lia|].
    assert (Hd : (1 <= length (drop 512 file))%nat).
    { destruct (drop 512 file); [discriminate Ht1 | simpl; lia]. }
    rewrite length_drop in Hd. lia.
  - intros Hb Hlt. apply (IH (drop 512 file) i); [done | lia].
Qed.

(** *** Feeding the hash in pieces *)

Lemma stripes_split n m v (data : bytes) :
  XXH32.stripes (n + m) v data
  = XXH32.stripes m (XXH32.stripes n v data) (drop (16 * n) data).
Proof.
  revert v data. induction n as [|n IH]; intros v data; simpl; [done|].
  rewrite IH, drop_drop. do 2 f_equal. lia.
Qed.

Lemma stripes_prefix n v (x y : bytes) :
  (16 * n <= length x)%nat -> XXH32.stripes n v (x ++ y) = XXH32.stripes n v x.
Proof.
  revert v x. induction n as [|n IH]; intros v x Hlen; simpl; [done|].
  rewrite take_app_le, drop_app_le by lia. apply IH. rewrite length_drop. lia.
Qed.

Lemma u32_le y : 0 <= y -> XXH32.u32 y <= y.
Proof. intros Hy. unfold XXH32.u32. apply Z.mod_le; lia. Qed.

Lemma u32_small y : 0 <= y < 2 ^ 32 -> XXH32.u32 y = y.
Proof. intros Hy. unfold XXH32.u32. by apply Z.mod_small. Qed.

Lemma u32_add_l a b : XXH32.u32 (XXH32.u32 a + b) = XXH32.u32 (a + b).
Proof. unfold XXH32.u32. apply Zplus_mod_idemp_l. Qed.

(** Two updates of a fresh hash are one update with the concatenation. *)
Lemma update_update_init (x b : bytes) :
  XXH32.update (XXH32.update XXH32.init x) b = XXH32.update XXH32.init (x ++ b).
Proof.
  unfold XXH32.update.
  cbn [XXH32.mem XXH32.acc XXH32.total_len_32 XXH32.large_len XXH32.init app].
  set (n1 := (length x / 16)%nat).
  set (n2 := (length (drop (16 * n1) x ++ b) / 16)%nat).
  assert (Hx : length x = (16 * n1 + length x mod 16)%nat) by (apply Nat.div_mod_eq).
  assert (Hn1 : (16 * n1 <= length x)%nat) by lia.
  assert (Hn : (length (x ++ b) / 16 = n1 + n2)%nat).
  { unfold n2. rewrite !length_app, length_drop.
    replace (length x - 16 * n1 + length b)%nat with (length x mod 16 + length b)%nat by lia.
    rewrite Hx at 1. rewrite <- Nat.add_assoc, Nat.mul_comm, Nat.div_add_l by lia. done. }
  rewrite Hn. f_equal.
  - rewrite u32_add_l, length_app. f_equal. lia.
  - rewrite length_app, Nat2Z.inj_add, u32_add_l, !Z.add_0_l.
    set (lx := Z.of_nat (length x)). set (lb := Z.of_nat (length b)).
    assert (0 <= lx /\ 0 <= lb) as [Hlx Hlb] by (unfold lx, lb; lia).
    pose proof (u32_le lx Hlx). pose proof (u32_le (lx + lb) ltac:(lia)).
    assert (lx < 2 ^ 32 -> XXH32.u32 lx = lx) by (intros; apply u32_small; lia).
    assert (lx + lb < 2 ^ 32 -> XXH32.u32 (lx + lb) = lx + lb)
      by (intros; apply u32_small; lia).
    change (2 ^ 32) with 4294967296 in *.
    repeat match goal with
           | |- context [?a <=? ?b] => destruct (Z.leb_spec a b)
           end; simpl; try reflexivity; exfalso; lia.
  - rewrite (stripes_split n1 n2), (stripes_prefix n1 _ x b Hn1).
    by rewrite (drop_app_le x b) by exact Hn1.
  - replace (16 * (n1 + n2))%nat with (16 * n1 + 16 * n2)%nat by lia.
    rewrite <- drop_drop. by rewrite (drop_app_le x) by exact Hn1.
Qed.

Lemma fold_update_init (bs : list bytes) (x : bytes) :
  fold_left XXH32.update bs (XXH32.update XXH32.init x)
  = XXH32.update XXH32.init (x ++ concat bs).
Proof.
  revert x. induction bs as [|b bs IH]; intros x; simpl.
  - by rewrite app_nil_r.
  - rewrite update_update_init, IH. by rewrite app_assoc.
Qed.

(** Reading in 512-byte blocks gives the hash of the content in one piece:
    the block size does not show in the digest. *)
Lemma content_digest_one_shot (content : bytes) :
  content_digest content = XXH32.digest (XXH32.update XXH32.init content).
Proof.
  unfold content_digest. rewrite read_blocks_fold.
  change XXH32.init with (XXH32.update XXH32.init []) at 1.
  rewrite fold_update_init. simpl. by rewrite concat_blocks.
Qed.

Lemma fingerprint_content filename content w :
  fs w !! filename = Some content ->
  fingerprint filename w = (Ok (content_digest content), w).
Proof.
  intros Hf. unfold fingerprint, bind, read_file. rewrite Hf. reflexivity.
Qed.

Lemma fingerprint_missing filename w :
  fs w !! filename = None -> fingerprint filename w = (Err FileNotFoundError, w).
Proof.
  intros Hf. unfold fingerprint, bind, read_file. rewrite Hf. reflexivity.
Qed.

(** C9. The fingerprint of a readable file is the XXH32 digest of its
    content fed block by block: the blocks are the successive 512-byte
    pieces of the content (every block but the last is 512 bytes long, none
    is empty, together they are the content), the digest is 4 bytes that
    spell a value below 2^32, and it depends on the content alone: two
    files with the same bytes, under any names and in any states, have the
    same fingerprint, and computing it changes nothing. The block size does
    not show: the digest is that of the content hashed in one piece. *)
Theorem fingerprint_content_only (w1 w2 : world) (p1 p2 : string) (content : bytes) :
  fs w1 !! p1 = Some content ->
  fs w2 !! p2 = Some content ->
  let bs := blocks (length content) content in
  let d := XXH32.digest (fold_left XXH32.update bs XXH32.init) in
  fingerprint p1 w1 = (Ok d, w1) /\
  fingerprint p2 w2 = (Ok d, w2) /\
  concat bs = content /\
  Forall (fun b => (1 <= length b <= 512)%nat) bs /\
  (forall i b, bs !! i = Some b -> (S i < length bs)%nat -> length b = 512%nat) /\
  d = XXH32.digest (XXH32.update XXH32.init content) /\
  length d = 4%nat /\
  0 <= XXH32.digest_value d < 2 ^ 32.
Proof.
  intros H1 H2 bs d.
  assert (Hd : content_digest content = d).
  { unfold content_digest, d, bs. by rewrite read_blocks_fold. }
  split_and!.
  - rewrite (fingerprint_content _ _ _ H1). by rewrite Hd.
  - rewrite (fingerprint_content _ _ _ H2). by rewrite Hd.
  - by apply concat_blocks.
  - apply blocks_nonempty.
  - apply blocks_full.
  - rewrite <- Hd. apply content_digest_one_shot.
  - reflexivity.
  - unfold d. rewrite digest_value_digest. apply intdigest_range.
  - unfold d. rewrite digest_value_digest. apply intdigest_range.
Qed.

Lemma fingerprint_content_only_witness :
  let w1 := initial_world {[ "/tmp/tmpa1.mp3"%string := Toy.song 600 ]} in
  let w2 := set_fs (<[ "b7.mp3"%string := Toy.song 600 ]> (fs Toy.full_world)) Toy.full_world in
  fs w1 !! "/tmp/tmpa1.mp3"%string = Some (Toy.song 600) /\
  fs w2 !! "b7.mp3"%string = Some (Toy.song 600) /\
  fst (fingerprint "/tmp/tmpa1.mp3" w1) = fst (fingerprint "b7.mp3" w2).
Proof.
  intros w1 w2.
  assert (H1 : fs w1 !! "/tmp/tmpa1.mp3"%string = Some (Toy.song 600))
    by (vm_compute; reflexivity).
  assert (H2 : fs w2 !! "b7.mp3"%string = Some (Toy.song 600))
    by (vm_compute; reflexivity).
  split; [exact H1 | split; [exact H2 |]].
  destruct (fingerprint_content_only w1 w2 _ _ _ H1 H2) as (E1 & E2 & _).
  rewrite E1, E2. reflexivity.
Defined.

(** ** [find_or_load_beats] *)
Section PipelineFacts.
Context `{C : Collaborators}.

Lemma pickle_load_file_artifact path w :
  pickle_load_file path w = (stored_artifact w path, w).
Proof.
  unfold pickle_load_file, stored_artifact, bind, read_file, lift.
  by destruct (fs w !! path).
Qed.

(** A miss goes straight to the beat engine. *)
Lemma find_or_load_beats_miss filename loader content w :
  fs w !! filename = Some content ->
  contains (content_digest content) (cache w) = false ->
  find_or_load_beats filename loader w
  = create_beats (content_digest content) filename loader w.
Proof.
  intros Hf Hc. unfold find_or_load_beats, bind at 1.
  rewrite (fingerprint_content _ _ _ Hf).
  unfold bind at 1, cache_contains. rewrite Hc. reflexivity.
Qed.

(** A hit whose artifact loads returns it, and only the log and the
    recency order change. *)
Lemma find_or_load_beats_hit filename loader content path b w :
  fs w !! filename = Some content ->
  assoc (content_digest content) (entries (cache w)) = Some path ->
  stored_artifact w path = Ok b ->
  find_or_load_beats filename loader w
  = (Ok b, looked_up (content_digest content) path w).
Proof.
  intros Hf Ha Hb. unfold find_or_load_beats, bind at 1.
  rewrite (fingerprint_content _ _ _ Hf).
  unfold bind at 1, cache_contains, contains. rewrite Ha.
  unfold bind at 1, bind at 1, logger, try_except, bind at 1.
  rewrite (cache_getitem_hit _ path) by exact Ha.
  unfold bind. rewrite pickle_load_file_artifact.
  change (stored_artifact _ path) with (stored_artifact w path). rewrite Hb.
  reflexivity.
Qed.

(** A hit whose artifact does not load continues as a miss. *)
Lemma find_or_load_beats_corrupt filename loader content path e w :
  fs w !! filename = Some content ->
  assoc (content_digest content) (entries (cache w)) = Some path ->
  stored_artifact w path = Err e ->
  find_or_load_beats filename loader w
  = create_beats (content_digest content) filename loader
      (add_log (CacheLoadFailed (content_digest content) e)
         (looked_up (content_digest content) path w)).
Proof.
  intros Hf Ha Hb. unfold find_or_load_beats, bind at 1.
  rewrite (fingerprint_content _ _ _ Hf).
  unfold bind at 1, cache_contains, contains. rewrite Ha.
  unfold bind at 1, bind at 1, logger, try_except, bind at 1.
  rewrite (cache_getitem_hit _ path) by exact Ha.
  unfold bind at 1. rewrite pickle_load_file_artifact.
  change (stored_artifact _ path) with (stored_artifact w path). rewrite Hb.
  reflexivity.
Qed.

Lemma Beats_from_song_run filename loader content w :
  fs w !! filename = Some content ->
  Beats_from_song filename loader w
  = (from_song content loader, add_engine_call (filename, loader) w).
Proof.
  intros Hf. unfold Beats_from_song, bind, read_file, lift.
  cbn [fs add_engine_call]. rewrite Hf. simpl. by destruct (from_song content loader).
Qed.

(** The miss path when the engine succeeds. *)
Lemma create_beats_ok d filename loader content b w :
  cache_ok (cache w) ->
  fs w !! filename = Some content ->
  from_song content loader = Ok b ->
  exists w',
    create_beats d filename loader w = (Ok b, w') /\
    cache_ok (cache w') /\
    last (keys (cache w')) = Some d /\
    assoc d (entries (cache w')) = Some (filename ++ "_beats.pkl")%string /\
    engine_calls w' = engine_calls w ++ [(filename, loader)] /\
    (fs w' = <[(filename ++ "_beats.pkl")%string := pickle_dump b]> (fs w) \/
     exists k0 v0 rest,
       entries (cache w) = (k0, v0) :: rest /\
       contains d (cache w) = false /\
       fs w' = delete v0 (<[(filename ++ "_beats.pkl")%string := pickle_dump b]> (fs w))).
Proof.
  intros Hok Hf Hb. unfold create_beats.
  erewrite bind_ok by reflexivity.
  erewrite bind_ok
    by (rewrite (Beats_from_song_run _ _ content) by exact Hf; rewrite Hb; reflexivity).
  erewrite bind_ok by reflexivity.
  match goal with
  | |- context [bind (cache_setitem d ?v) _ ?w0] =>
      destruct (cache_setitem_ok d v w0) as (w' & Hset & Hok' & Hlast & Hassoc & Hcalls & Hfs);
        [exact Hok | rewrite (bind_ok _ _ _ _ _ Hset)]
  end.
  exists w'. split_and!; [done | done | done | done | by rewrite Hcalls | exact Hfs].
Qed.

(** The miss path when the engine fails: the failure is the result, and
    nothing is stored. *)
Lemma create_beats_engine_error d filename loader content e w :
  fs w !! filename = Some content ->
  from_song content loader = Err e ->
  create_beats d filename loader w
  = (Err e, add_engine_call (filename, loader) (add_log (CacheMiss d) w)).
Proof.
  intros Hf Hb. unfold create_beats.
  erewrite bind_ok by reflexivity.
  erewrite bind_err
    by (rewrite (Beats_from_song_run _ _ content) by exact Hf; rewrite Hb; reflexivity).
  reflexivity.
Qed.

Lemma cache_ok_looked_up d path w :
  cache_ok (cache w) -> assoc d (entries (cache w)) = Some path ->
  cache_ok (cache (looked_up d path w)).
Proof.
  intros Hok Ha. apply (cache_ok_store d path); [|done].
  left. unfold contains. by rewrite Ha.
Qed.

(** C5. When the fingerprint of the file is in the cache and the stored
    artifact does not load (the backing file is missing, or unpickling
    raises), [find_or_load_beats] logs the failure and continues exactly
    as on a miss: the beat engine is run once on the file; its analysis is
    the result, and when the engine itself fails that failure is the
    result. The load failure is not the outcome of the request. *)
Theorem corrupt_entry_is_a_miss (w : world) (filename : string) (loader : kwargs)
    (content : bytes) (path : string) (e : exn) :
  cache_ok (cache w) ->
  fs w !! filename = Some content ->
  assoc (content_digest content) (entries (cache w)) = Some path ->
  stored_artifact w path = Err e ->
  let d := content_digest content in
  find_or_load_beats filename loader w
  = create_beats d filename loader (add_log (CacheLoadFailed d e) (looked_up d path w)) /\
  engine_calls (snd (find_or_load_beats filename loader w))
  = engine_calls w ++ [(filename, loader)] /\
  fst (find_or_load_beats filename loader w) = from_song content loader.
Proof.
  intros Hok Hf Ha Hb d.
  rewrite (find_or_load_beats_corrupt _ _ _ _ _ _ Hf Ha Hb). fold d.
  split; [done|].
  set (w0 := add_log (CacheLoadFailed d e) (looked_up d path w)).
  assert (Hok0 : cache_ok (cache w0)) by (by apply cache_ok_looked_up).
  assert (Hf0 : fs w0 !! filename = Some content) by exact Hf.
  destruct (from_song content loader) as [b|e'] eqn:Hb'.
  - destruct (create_beats_ok d filename loader content b w0 Hok0 Hf0 Hb')
      as (w' & -> & _ & _ & _ & Hcalls & _).
    split; [exact Hcalls | done].
  - rewrite (create_beats_engine_error d _ _ _ _ _ Hf0 Hb'). done.
Qed.

(** After a call that found the fingerprint in the cache, the fingerprint
    is the most recently used key, whatever became of the load. *)
Lemma find_or_load_beats_hit_recency w filename loader content :
  cache_ok (cache w) ->
  fs w !! filename = Some content ->
  contains (content_digest content) (cache w) = true ->
  let w' := snd (find_or_load_beats filename loader w) in
  cache_ok (cache w') /\ last (keys (cache w')) = Some (content_digest content).
Proof.
  intros Hok Hf Hc. set (d := content_digest content).
  unfold contains in Hc. fold d in Hc.
  destruct (assoc d (entries (cache w))) as [path|] eqn:Ha; [|discriminate Hc].
  destruct (stored_artifact w path) as [b|e] eqn:Hb.
  - rewrite (find_or_load_beats_hit _ _ _ _ _ _ Hf Ha Hb). simpl. fold d.
    split; [by apply cache_ok_looked_up | apply last_keys_store].
  - rewrite (find_or_load_beats_corrupt _ _ _ _ _ _ Hf Ha Hb). fold d.
    set (w0 := add_log (CacheLoadFailed d e) (looked_up d path w)).
    assert (Hok0 : cache_ok (cache w0)) by (by apply cache_ok_looked_up).
    assert (Hf0 : fs w0 !! filename = Some content) by exact Hf.
    destruct (from_song content loader) as [b|e'] eqn:Hb'.
    + destruct (create_beats_ok d filename loader content b w0 Hok0 Hf0 Hb')
        as (w' & -> & Hok' & Hlast & _). done.
    + rewrite (create_beats_engine_error d _ _ _ _ _ Hf0 Hb'). simpl.
      split; [exact Hok0 | apply last_keys_store].
Qed.

(** C6. A call of [find_or_load_beats] that finds the fingerprint of its
    file in the cache leaves that fingerprint the most recently used key.
    So when the cache is full afterwards and a new key is stored, the
    entry evicted is another one (the first in recency order, which is
    gone afterwards), and the fingerprint that was hit stays, even if it
    was the oldest entry before the hit. *)
Theorem hit_marks_most_recently_used (w : world) (filename : string) (loader : kwargs)
    (content : bytes) :
  cache_ok (cache w) ->
  fs w !! filename = Some content ->
  contains (content_digest content) (cache w) = true ->
  let d := content_digest content in
  let w' := snd (find_or_load_beats filename loader w) in
  last (keys (cache w')) = Some d /\
  forall k v,
    contains k (cache w') = false -> currsize (cache w') = 8%nat ->
    exists k0 v0 rest w'',
      entries (cache w') = (k0, v0) :: rest /\
      cache_setitem k v w' = (Ok tt, w'') /\
      k0 <> d /\
      contains k0 (cache w'') = false /\
      contains d (cache w'') = true.
Proof.
  intros Hok Hf Hc d w'.
  destruct (find_or_load_beats_hit_recency w filename loader content Hok Hf Hc)
    as [Hok' Hlast].
  fold w' in Hok', Hlast. fold d in Hlast. split; [exact Hlast|].
  intros k v Hk Hfull. pose proof Hok' as (Hmax & Hnd & Hle).
  destruct (entries (cache w')) as [|[k0 v0] rest] eqn:He.
  { unfold currsize in Hfull. rewrite He in Hfull. discriminate Hfull. }
  assert (Hrest : exists rest', map fst rest = rest' ++ [d]).
  { unfold keys in Hlast. rewrite He in Hlast. simpl in Hlast.
    unfold currsize in Hfull. rewrite He in Hfull. simpl in Hfull.
    destruct rest as [|kv rest]; [simpl in Hfull; lia|].
    simpl in Hlast. apply last_Some in Hlast as [l' Hl'].
    exists l'. exact Hl'. }
  destruct Hrest as [rest' Hrest'].
  unfold keys in Hnd. rewrite He in Hnd. simpl in Hnd.
  apply NoDup_cons in Hnd as [Hk0 Hnd].
  assert (Hd : d ∈ map fst rest).
  { rewrite Hrest'. apply elem_of_app. right. by apply list_elem_of_singleton. }
  exists k0, v0, rest. eexists.
  rewrite (cache_setitem_eviction k v w' k0 v0 rest); [|lia|done|lia|done].
  split_and!; [done | done | | |].
  - intros ->. done.
  - apply contains_false. unfold keys; simpl. rewrite map_app. simpl.
    intros Hin. apply elem_of_app in Hin as [Hin|Hin]; [done|].
    apply list_elem_of_singleton in Hin. subst k0.
    apply contains_false in Hk. apply Hk. unfold keys. rewrite He. left.
  - apply contains_true. unfold keys; simpl. rewrite map_app.
    apply elem_of_app. by left.
Qed.



End PipelineFacts.

(** *** The theorems at work on the test double *)

Lemma cache_ok_after8 : cache_ok (cache Toy.after8).
Proof.
  split_and!; [vm_compute; reflexivity | | vm_compute; lia].
  apply (bool_decide_unpack _). vm_compute. exact I.
Qed.

Lemma cache_ok_corrupted : cache_ok (cache Toy.corrupted).
Proof.
  split_and!; [vm_compute; reflexivity | | vm_compute; lia].
  apply (bool_decide_unpack _). vm_compute. exact I.
Qed.

Lemma corrupt_entry_is_a_miss_witness :
  cache_ok (cache Toy.corrupted) /\
  fs Toy.corrupted !! "s1.mp3"%string = Some (Toy.song 1) /\
  assoc (content_digest (Toy.song 1)) (entries (cache Toy.corrupted))
  = Some "s1.mp3_beats.pkl"%string /\
  stored_artifact Toy.corrupted "s1.mp3_beats.pkl" = Err (Exception "UnpicklingError") /\
  fst (find_or_load_beats "s1.mp3" {| min_bpm := 100; max_bpm := 140 |} Toy.corrupted)
  = from_song (Toy.song 1) {| min_bpm := 100; max_bpm := 140 |}.
Proof.
  assert (H1 : cache_ok (cache Toy.corrupted)) by exact cache_ok_corrupted.
  assert (H2 : fs Toy.corrupted !! "s1.mp3"%string = Some (Toy.song 1))
    by (vm_compute; reflexivity).
  assert (H3 : assoc (content_digest (Toy.song 1)) (entries (cache Toy.corrupted))
               = Some "s1.mp3_beats.pkl"%string) by (vm_compute; reflexivity).
  assert (H4 : stored_artifact Toy.corrupted "s1.mp3_beats.pkl"
               = Err (Exception "UnpicklingError")) by (vm_compute; reflexivity).
  split_and!; [exact H1 | exact H2 | exact H3 | exact H4 |].
  exact (proj2 (proj2 (corrupt_entry_is_a_miss Toy.corrupted "s1.mp3"
                         {| min_bpm := 100; max_bpm := 140 |} (Toy.song 1)
                         "s1.mp3_beats.pkl" _ H1 H2 H3 H4))).
Defined.

Lemma hit_marks_most_recently_used_witness :
  cache_ok (cache Toy.after8) /\
  fs Toy.after8 !! "s1.mp3"%string = Some (Toy.song 1) /\
  contains (content_digest (Toy.song 1)) (cache Toy.after8) = true /\
  last (keys (cache (snd (find_or_load_beats "s1.mp3" Toy.default_window Toy.after8))))
  = Some (content_digest (Toy.song 1)).
Proof.
  assert (H2 : fs Toy.after8 !! "s1.mp3"%string = Some (Toy.song 1))
    by (vm_compute; reflexivity).
  assert (H3 : contains (content_digest (Toy.song 1)) (cache Toy.after8) = true)
    by (vm_compute; reflexivity).
  split_and!; [exact cache_ok_after8 | exact H2 | exact H3 |].
  exact (proj1 (hit_marks_most_recently_used Toy.after8 "s1.mp3" Toy.default_window
                  (Toy.song 1) cache_ok_after8 H2 H3)).
Defined.

(** The first song was hit, then a ninth song is analysed: the second song
    goes, the first stays. *)
Example hit_then_ninth_song :
  map snd (entries (cache (Toy.analysed ["s1.mp3"; "s9.mp3"]%string Toy.after8)))
  = ["s3.mp3_beats.pkl"; "s4.mp3_beats.pkl"; "s5.mp3_beats.pkl"; "s6.mp3_beats.pkl";
     "s7.mp3_beats.pkl"; "s8.mp3_beats.pkl"; "s1.mp3_beats.pkl"; "s9.mp3_beats.pkl"]%string.
Proof. vm_compute. reflexivity. Qed.


(** ** Where an [HTTPException] can come from *)

Lemma no_http_ret {A} (a : A) : no_http (ret a).
Proof. intros w. exact I. Qed.

Lemma no_http_lift {A} (r : result A) : raises_no_http r -> no_http (lift r).
Proof. intros Hr w. exact Hr. Qed.

Lemma no_http_bind {A B} (m : M A) (f : A -> M B) :
  no_http m -> (forall a, no_http (f a)) -> no_http (bind m f).
Proof.
  intros Hm Hf w. unfold bind. specialize (Hm w).
  destruct (m w) as [[a|e] w']; simpl in *; [apply Hf | exact Hm].
Qed.

Lemma no_http_try_except_all {A} (m : M A) (h : exn -> option (M A)) :
  (forall e, exists handler, h e = Some handler /\ no_http handler) ->
  no_http (try_except m h).
Proof.
  intros Hh w. unfold try_except.
  destruct (m w) as [[a|e] w']; simpl; [exact I|].
  destruct (Hh e) as (handler & -> & Hn). apply Hn.
Qed.

Lemma no_http_read_file path : no_http (read_file path).
Proof. intros w. unfold read_file; simpl. by destruct (fs w !! path). Qed.

Lemma no_http_write_file path content : no_http (write_file path content).
Proof. intros w. exact I. Qed.

Lemma no_http_logger ev : no_http (logger ev).
Proof. intros w. exact I. Qed.

Lemma no_http_os_remove path : no_http (os_remove path).
Proof. intros w. unfold os_remove. by destruct (fs w !! path). Qed.

Lemma no_http_os_path_isfile path : no_http (os_path_isfile path).
Proof. intros w. exact I. Qed.

Lemma no_http_popitem : no_http popitem.
Proof.
  unfold popitem. apply no_http_bind.
  - intros w. unfold super_popitem. by destruct (lru_popitem (cache w)) as [[kv c']|].
  - intros kv. apply no_http_bind; [apply no_http_logger|]. intros _.
    apply no_http_bind; [apply no_http_os_path_isfile|].
    intros [|]; [apply no_http_os_remove | apply no_http_ret].
Qed.

Lemma no_http_make_room fuel : no_http (make_room fuel).
Proof.
  induction fuel as [|fuel IH]; [apply no_http_ret|].
  intros w. simpl.
  destruct (maxsize (cache w) <? currsize (cache w) + 1)%nat; [|exact I].
  apply (no_http_bind popitem); [apply no_http_popitem | intros _; exact IH].
Qed.

Lemma no_http_cache_setitem k v : no_http (cache_setitem k v).
Proof.
  intros w. unfold cache_setitem.
  destruct (maxsize (cache w) <? 1)%nat; [exact I|].
  apply (no_http_bind (if contains k (cache w) then ret tt
                       else make_room (S (currsize (cache w))))).
  - destruct (contains k (cache w)); [apply no_http_ret | apply no_http_make_room].
  - intros _ w'. exact I.
Qed.

Lemma no_http_cache_getitem k : no_http (cache_getitem k).
Proof.
  intros w. unfold cache_getitem. by destruct (getitem k (cache w)) as [[v c']|].
Qed.

Lemma no_http_fingerprint filename : no_http (fingerprint filename).
Proof.
  unfold fingerprint. apply no_http_bind; [apply no_http_read_file|].
  intros file. apply no_http_ret.
Qed.

Section Requests.
Context `{C : Collaborators}.

Lemma no_http_create_beats `{!EngineErrors} d filename loader :
  no_http (create_beats d filename loader).
Proof.
  unfold create_beats. apply no_http_bind; [apply no_http_logger|]. intros _.
  apply no_http_bind.
  - intros w. unfold Beats_from_song.
    apply (no_http_bind (read_file filename)); [apply no_http_read_file|].
    intros content. apply no_http_lift, from_song_no_http.
  - intros beats. apply no_http_bind; [apply no_http_write_file|]. intros _.
    apply no_http_bind; [apply no_http_cache_setitem|]. intros _. apply no_http_ret.
Qed.

Lemma no_http_find_or_load_beats `{!EngineErrors} filename loader :
  no_http (find_or_load_beats filename loader).
Proof.
  unfold find_or_load_beats. apply no_http_bind; [apply no_http_fingerprint|]. intros d.
  apply no_http_bind; [intros w; exact I|]. intros hit.
  apply no_http_bind.
  - destruct hit; [|apply no_http_ret].
    apply no_http_bind; [apply no_http_logger|]. intros _.
    apply no_http_try_except_all. intros e. eexists. split; [reflexivity|].
    apply no_http_bind; [apply no_http_logger | intros _; apply no_http_ret].
  - intros [beats|]; [apply no_http_ret | by apply no_http_create_beats].
Qed.

Lemma apply_effects_no_http `{!EngineErrors} effects beats :
  raises_no_http (apply_effects effects beats).
Proof.
  revert beats. induction effects as [|e effects IH]; intros beats; simpl; [exact I|].
  pose proof (apply_no_http beats e) as Ha.
  destruct (apply beats e) as [beats'|x]; [apply IH | exact Ha].
Qed.

(** Past the two checks, [process_song] raises no [HTTPException]. *)
Lemma no_http_transform `{!EngineErrors} effects filename processing_args :
  no_http (transform effects filename processing_args).
Proof.
  unfold transform. apply no_http_bind; [by apply no_http_find_or_load_beats|].
  intros beats. apply no_http_bind; [apply no_http_lift, apply_effects_no_http|].
  intros beats'. apply no_http_bind; [apply no_http_lift, save_no_http|].
  intros buf. apply no_http_bind; [apply no_http_os_remove|]. intros _. apply no_http_ret.
Qed.

Lemma MP3_run filename content w :
  fs w !! filename = Some content -> MP3 filename w = (MP3_length content, w).
Proof. intros Hf. unfold MP3. by rewrite Hf. Qed.

(** [process_song] when the metadata can be read. *)
Lemma process_song_checked effects filename processing_args content len w :
  fs w !! filename = Some content ->
  MP3_length content = Ok len ->
  process_song effects filename processing_args w
  = if negb (Qle_bool len (inject_Z MAX_LENGTH))
    then (Err too_long, w)
    else transform effects filename processing_args w.
Proof.
  intros Hf Hlen. unfold process_song.
  rewrite (bind_ok _ _ w len w).
  - by destruct (negb (Qle_bool len (inject_Z MAX_LENGTH))).
  - unfold try_except. by rewrite (MP3_run _ _ _ Hf), Hlen.
Qed.

Lemma too_long_test len :
  negb (Qle_bool len (inject_Z MAX_LENGTH)) = true <-> (390 < len)%Q.
Proof.
  change (inject_Z MAX_LENGTH) with 390%Q.
  rewrite negb_true_iff. split.
  - intros Hb. apply Qnot_le_lt. intros Hle. apply Qle_bool_iff in Hle. congruence.
  - intros Hlt. destruct (Qle_bool len 390) eqn:Hb; [|done].
    apply Qle_bool_iff in Hb. exfalso. by apply (Qlt_not_le 390 len).
Qed.

(** C7. For a song whose metadata reads with a duration of [len] seconds,
    [process_song] raises the "too long" error (status 422) if and only if
    [len] is more than 390. When it does, nothing else has happened (the
    state is untouched); otherwise the request is accepted, that is,
    [process_song] goes on with the analysis and the effects. *)
Theorem too_long_iff_over_390 `{!EngineErrors} (effects : list LoadableEffect)
    (filename : string) (processing_args : kwargs) (content : bytes) (len : Q) (w : world) :
  fs w !! filename = Some content ->
  MP3_length content = Ok len ->
  (fst (process_song effects filename processing_args w)
   = Err (HTTPException 422 "Song is too long (max is 390 seconds)")
   <-> (390 < len)%Q) /\
  ((390 < len)%Q ->
   process_song effects filename processing_args w
   = (Err (HTTPException 422 "Song is too long (max is 390 seconds)"), w)) /\
  (~ (390 < len)%Q ->
   process_song effects filename processing_args w
   = transform effects filename processing_args w).
Proof.
  intros Hf Hlen. rewrite (process_song_checked _ _ _ _ _ _ Hf Hlen).
  destruct (negb (Qle_bool len (inject_Z MAX_LENGTH))) eqn:Hb.
  - apply too_long_test in Hb. split_and!; [done | done | done].
  - assert (Hn : ~ (390 < len)%Q).
    { intros Hlt. apply too_long_test in Hlt. congruence. }
    split_and!; [| done | done].
    split; [|done]. intros Herr.
    pose proof (no_http_transform effects filename processing_args w) as Hno.
    rewrite Herr in Hno. destruct Hno.
Qed.

(** A request that succeeds has removed its source file. *)
Lemma process_song_ok_removes_source effects filename processing_args w r w' :
  process_song effects filename processing_args w = (Ok r, w') ->
  fs w' !! filename = None.
Proof.
  unfold process_song, bind at 1.
  destruct (try_except (MP3 filename) _ w) as [[len|e] w0]; [|discriminate].
  destruct (negb (Qle_bool len (inject_Z MAX_LENGTH))); [discriminate|].
  unfold transform, bind at 1.
  destruct (find_or_load_beats filename processing_args w0) as [[beats|e] w1]; [|discriminate].
  unfold bind at 1, lift.
  destruct (apply_effects effects beats) as [beats'|e]; [|discriminate].
  unfold bind at 1. destruct (save beats') as [buf|e]; [|discriminate].
  unfold bind, os_remove, ret.
  destruct (fs w1 !! filename) as [c|] eqn:Hc; [|discriminate].
  intros [= _ <-]. simpl. apply lookup_delete_eq.
Qed.

(** [POST /] checks the length of the chain once the effects are loaded. *)
Lemma process_song_from_file_length_check effects song tmpname settings chain w w1 :
  parse_effects effects w = (Ok (settings, chain), w1) ->
  process_song_from_file effects song tmpname w
  = if (5 <? length chain)%nat
    then (Err (HTTPException 400 "Too many effects (max is 5)"), w1)
    else if (length chain <? 1)%nat
         then (Err (HTTPException 400 "Not enough effects (min is 1)"), w1)
         else process_upload settings chain song tmpname w1.
Proof.
  intros Hp. unfold process_song_from_file.
  rewrite (bind_ok _ _ w (settings, chain) w1) by (unfold try_except; by rewrite Hp).
  simpl. destruct (5 <? length chain)%nat; [done|].
  by destruct (length chain <? 1)%nat.
Qed.

End Requests.

#[global] Instance toy_engine_errors : EngineErrors (C := Toy.collaborators).
Proof.
  split.
  - intros content loader. simpl. unfold Toy.analyse.
    by destruct (max_bpm loader <? min_bpm loader).
  - intros beats [|]; simpl; [done | by destruct beats].
  - intros beats. exact I.
Qed.

Lemma too_long_iff_over_390_witness :
  let w := initial_world {[ "/tmp/tmpq.mp3"%string := Toy.song 391 ]} in
  fs w !! "/tmp/tmpq.mp3"%string = Some (Toy.song 391) /\
  MP3_length (Toy.song 391) = Ok 391%Q /\
  process_song [Toy.Reverse] "/tmp/tmpq.mp3" Toy.default_window w
  = (Err (HTTPException 422 "Song is too long (max is 390 seconds)"), w).
Proof.
  intros w.
  assert (H1 : fs w !! "/tmp/tmpq.mp3"%string = Some (Toy.song 391))
    by (vm_compute; reflexivity).
  assert (H2 : MP3_length (Toy.song 391) = Ok 391%Q) by (vm_compute; reflexivity).
  split_and!; [exact H1 | exact H2 |].
  apply (proj1 (proj2 (too_long_iff_over_390 (C := Toy.collaborators) [Toy.Reverse]
                         "/tmp/tmpq.mp3" Toy.default_window (Toy.song 391) 391%Q w H1 H2))).
  reflexivity.
Defined.

(** Exactly 390 seconds pass the check, 391 do not. *)
Example song_of_390_seconds_accepted :
  let w := initial_world {[ "/tmp/tmpq.mp3"%string := Toy.song 390 ]} in
  exists r w', process_song [Toy.Reverse] "/tmp/tmpq.mp3" Toy.default_window w = (Ok r, w').
Proof. intros w. eexists _, _. vm_compute. reflexivity. Qed.

Example song_of_391_seconds_rejected :
  let w := initial_world {[ "/tmp/tmpq.mp3"%string := Toy.song 391 ]} in
  process_song [Toy.Reverse] "/tmp/tmpq.mp3" Toy.default_window w
  = (Err (HTTPException 422 "Song is too long (max is 390 seconds)"), w).
Proof. vm_compute. reflexivity. Qed.

(** ** Where the program and its specification part *)

(** C1. The source file is removed on success only. Four failing requests
    on the test double, each with its temporary file still on disk
    afterwards: a song of 391 seconds (too long), an empty file (metadata
    unreadable), a window the engine refuses (beat analysis fails), and a
    chain that runs out of beats (an effect fails). *)
Theorem source_file_survives_failed_request :
  let name := "/tmp/tmpx.mp3"%string in
  let run content effects window :=
    process_song (C := Toy.collaborators) effects name window
      (initial_world {[ name := content ]}) in
  (fst (run (Toy.song 391) [Toy.Reverse] Toy.default_window)
   = Err (HTTPException 422 "Song is too long (max is 390 seconds)") /\
   fs (snd (run (Toy.song 391) [Toy.Reverse] Toy.default_window)) !! name
   = Some (Toy.song 391)) /\
  (fst (run [] [Toy.Reverse] Toy.default_window)
   = Err (HTTPException 422 "Failed to read song metadata") /\
   fs (snd (run [] [Toy.Reverse] Toy.default_window)) !! name = Some []) /\
  (fst (run (Toy.song 3) [Toy.Reverse] {| min_bpm := 135; max_bpm := 105 |})
   = Err (Exception "no tempo in range") /\
   fs (snd (run (Toy.song 3) [Toy.Reverse] {| min_bpm := 135; max_bpm := 105 |})) !! name
   = Some (Toy.song 3)) /\
  (fst (run (Toy.song 1) [Toy.Tail; Toy.Tail; Toy.Tail; Toy.Tail] Toy.default_window)
   = Err (Exception "no beats left") /\
   fs (snd (run (Toy.song 1) [Toy.Tail; Toy.Tail; Toy.Tail; Toy.Tail] Toy.default_window))
   !! name = Some (Toy.song 1)).
Proof. vm_compute. repeat split. Qed.

(** The same request with a song that passes: the file is gone. *)
Example source_file_removed_on_success :
  let name := "/tmp/tmpx.mp3"%string in
  let r := process_song (C := Toy.collaborators) [Toy.Reverse] name Toy.default_window
             (initial_world {[ name := Toy.song 3 ]}) in
  fst r = Ok {| body := [x01; x01; x01; x2c; x3c]; media_type := "audio/mpeg" |} /\
  fs (snd r) !! name = None.
Proof. vm_compute. repeat split. Qed.

(** C2. [POST /yt] does not check the length of the chain: a request with
    six effects and a request with none are both processed and answered
    with the audio, where [POST /] answers 400. *)
Theorem youtube_chain_length_unchecked :
  let payload n :=
    {| youtube_url := "abc"; effects := repeat [("type"%string, JStr "r")] n; settings := [] |} in
  fst (process_song_from_youtube (C := Toy.collaborators) (payload 6%nat) "u" (initial_world ∅))
  = Ok {| body := [x3c; x2c; x61; x62; x63]; media_type := "audio/mpeg" |} /\
  fst (process_song_from_youtube (C := Toy.collaborators) (payload 0%nat) "u" (initial_world ∅))
  = Ok {| body := [x3c; x2c; x61; x62; x63]; media_type := "audio/mpeg" |}.
Proof. vm_compute. repeat split. Qed.

(** [POST /] on the same chains: none and six are refused, one and five are
    processed. *)
Example upload_chain_lengths :
  let post text :=
    fst (process_song_from_file (C := Toy.collaborators) (Some text) (Some (Toy.song 3))
           "/tmp/tmpu.mp3" (initial_world ∅)) in
  post ""%string = Err (HTTPException 400 "Not enough effects (min is 1)") /\
  post "rrrrrr"%string = Err (HTTPException 400 "Too many effects (max is 5)") /\
  post "r"%string = Ok {| body := [x01; x01; x01; x2c; x3c]; media_type := "audio/mpeg" |} /\
  post "rrrrr"%string = Ok {| body := [x01; x01; x01; x2c; x3c]; media_type := "audio/mpeg" |}.
Proof. vm_compute. repeat split. Qed.

(** ** A reused temporary name *)



(** * Further properties *)

(** ** Allowed origins *)

Example origins_by_default : allow_origins None = ORIGINS.
Proof. reflexivity. Qed.

Example origins_with_empty_variable : allow_origins (Some ""%string) = ORIGINS.
Proof. reflexivity. Qed.

Example origins_with_variable_set : allow_origins (Some "1"%string) = ["*"%string].
Proof. reflexivity. Qed.

(** ** The cache as a store *)

Lemma remove_key_app {K V : Type} `{EqDecision K} (k : K) (l1 l2 : list (K * V)) :
  remove_key k (l1 ++ l2) = remove_key k l1 ++ remove_key k l2.
Proof.
  induction l1 as [|[k' v'] l1 IH]; simpl; [done|].
  destruct (decide (k' = k)); [done|]. simpl. by rewrite IH.
Qed.

Lemma remove_key_last {K V : Type} `{EqDecision K} (k : K) (v : V) (l : list (K * V)) :
  k ∉ map fst l -> remove_key k (l ++ [(k, v)]) ++ [(k, v)] = l ++ [(k, v)].
Proof.
  intros Hk. rewrite remove_key_app, (remove_key_absent k l Hk). simpl.
  rewrite decide_True by done. by rewrite app_nil_r.
Qed.

Lemma assoc_moved_other {K V : Type} `{EqDecision K} (k k' : K) (v : V) (l : list (K * V)) :
  k' <> k -> assoc k' (remove_key k l ++ [(k, v)]) = assoc k' l.
Proof.
  intros Hne. rewrite assoc_app, assoc_remove_key_ne by done.
  destruct (assoc k' l); [done|]. simpl. by rewrite decide_False.
Qed.

(** X1. On the module-level cache a store never fails and a lookup of the
    key just stored returns the value stored and changes nothing more (the
    key is the most recent already). Every other key keeps its value,
    except the one entry a store of a new key into the full cache evicts:
    the first in recency order. *)
Theorem store_then_lookup (k : bytes) (v : string) (w : world) :
  cache_ok (cache w) ->
  exists w1,
    cache_setitem k v w = (Ok tt, w1) /\
    cache_getitem k w1 = (Ok v, w1) /\
    forall k', k' <> k ->
      assoc k' (entries (cache w1)) = assoc k' (entries (cache w)) \/
      (exists v0 rest,
         entries (cache w) = (k', v0) :: rest /\
         contains k (cache w) = false /\
         currsize (cache w) = 8%nat /\
         assoc k' (entries (cache w1)) = None).
Proof.
  intros Hok. pose proof Hok as (Hmax & Hnd & Hle).
  assert (Hm1 : (1 <= maxsize (cache w))%nat) by lia.
  assert (Hlookup : forall w1 l,
             entries (cache w1) = l ++ [(k, v)] -> k ∉ map fst l ->
             cache_getitem k w1 = (Ok v, w1)).
  { intros w1 l He Hk.
    rewrite (cache_getitem_hit k v).
    - f_equal. destruct w1 as [f [m es] lg ec]. simpl in He. subst es.
      unfold set_cache, store; simpl. by rewrite (remove_key_last k v l Hk).
    - rewrite He, assoc_app, (proj2 (assoc_None k l) Hk). simpl. by rewrite decide_True. }
  destruct (contains k (cache w)) eqn:Hc;
    [| destruct (decide (currsize (cache w) = maxsize (cache w))) as [Hfull|Hnf]].
  - eexists. rewrite cache_setitem_no_eviction by auto. split_and!; [done | |].
    + apply (Hlookup _ (remove_key k (entries (cache w)))); [done|].
      apply not_elem_remove_key.
    + intros k' Hne. left. simpl. by apply assoc_moved_other.
  - destruct (entries (cache w)) as [|[k0 v0] rest] eqn:He.
    { unfold currsize in Hfull. rewrite He in Hfull. simpl in Hfull. lia. }
    assert (Hk : k ∉ map fst rest).
    { apply contains_false in Hc. unfold keys in Hc. rewrite He in Hc. simpl in Hc.
      by apply not_elem_of_cons in Hc as [_ Hc]. }
    unfold keys in Hnd. rewrite He in Hnd. simpl in Hnd.
    apply NoDup_cons in Hnd as [Hk0 Hnd].
    eexists. rewrite (cache_setitem_eviction _ _ _ _ _ _ Hm1 Hc Hfull He).
    split_and!; [done | by apply (Hlookup _ rest) |].
    intros k' Hne. simpl. rewrite assoc_app.
    destruct (decide (k0 = k')) as [->|Hne0].
    + right. exists v0, rest. split_and!; [done | done | lia |].
      rewrite (proj2 (assoc_None k' rest) Hk0). simpl. by rewrite decide_False.
    + left. destruct (assoc k' rest); [done|]. simpl. by rewrite decide_False.
  - eexists. rewrite cache_setitem_no_eviction by (auto; right; lia).
    split_and!; [done | |].
    + apply (Hlookup _ (remove_key k (entries (cache w)))); [done|].
      apply not_elem_remove_key.
    + intros k' Hne. left. simpl. by apply assoc_moved_other.
Qed.

Lemma store_then_lookup_witness :
  cache_ok (cache Toy.full_world) /\
  exists w1,
    cache_setitem [x00; x00; x00; x09] "9.mp3_beats.pkl" Toy.full_world = (Ok tt, w1) /\
    cache_getitem [x00; x00; x00; x09] w1 = (Ok "9.mp3_beats.pkl"%string, w1).
Proof.
  assert (Hok : cache_ok (cache Toy.full_world)).
  { split_and!; [reflexivity | | vm_compute; lia].
    apply (bool_decide_unpack _). vm_compute. exact I. }
  split; [exact Hok|].
  destruct (store_then_lookup [x00; x00; x00; x09] "9.mp3_beats.pkl" Toy.full_world Hok)
    as (w1 & Hset & Hget & _).
  exists w1. split; [exact Hset | exact Hget].
Defined.

(** X2. [LRUFileCache.popitem] on an empty cache raises [KeyError] and does
    nothing else. On a non-empty cache it removes the first entry, logs its
    key, runs no analysis and leaves every file other than that entry's
    backing file as it was. *)
Theorem popitem_effects (w : world) :
  match entries (cache w) with
  | [] => popitem w = (Err KeyError, w)
  | (k, v) :: rest =>
      exists w',
        popitem w = (Ok tt, w') /\
        entries (cache w') = rest /\
        maxsize (cache w') = maxsize (cache w) /\
        log w' = log w ++ [CacheEvicting k] /\
        engine_calls w' = engine_calls w /\
        forall path, path <> v -> fs w' !! path = fs w !! path
  end.
Proof.
  destruct (entries (cache w)) as [|[k v] rest] eqn:He.
  - by apply popitem_empty.
  - exists (evicted k v rest w). rewrite (popitem_cons _ _ _ _ He).
    split_and!; [done | done | done | done | done |].
    intros path Hne. simpl. by apply lookup_delete_ne.
Qed.

(** ** More on the settings *)

Lemma dict_get_pop_same key (d : dict) : dict_get key (dict_pop key d) = None.
Proof.
  induction d as [|[k v] d IH]; simpl; [done|].
  destruct (String.eqb k key) eqn:Hk; [done|]. simpl. by rewrite Hk.
Qed.

Lemma dict_get_pop_ne key key' (d : dict) :
  key <> key' -> dict_get key' (dict_pop key d) = dict_get key' d.
Proof.
  intros Hne. induction d as [|[k v] d IH]; simpl; [done|].
  destruct (String.eqb k key) eqn:Hk.
  - apply String.eqb_eq in Hk as ->.
    destruct (String.eqb key key') eqn:Hk'; [|done].
    apply String.eqb_eq in Hk'. done.
  - simpl. by destruct (String.eqb k key').
Qed.

(** X3. When [suggested_bpm] is present, a value under [suggested_bpm] or
    under [drift] that is not a number (a string, a list, a dict, null)
    makes [_settings_to_kwargs] raise [TypeError]. *)
Theorem settings_not_a_number (settings : dict) (suggested : json) :
  dict_get "suggested_bpm" settings = Some suggested ->
  as_number suggested = None \/
  (exists drift, dict_get "drift" settings = Some drift /\ as_number drift = None) ->
  _settings_to_kwargs settings = Err TypeError.
Proof.
  intros Hs Hbad. unfold _settings_to_kwargs. rewrite Hs.
  destruct Hbad as [Hn | (drift & Hd & Hn)].
  - by rewrite Hn.
  - rewrite Hd. simpl. rewrite Hn. by destruct (as_number suggested).
Qed.

Lemma settings_not_a_number_witness :
  dict_get "suggested_bpm" [("suggested_bpm"%string, JInt 120); ("drift"%string, JStr "5")]
  = Some (JInt 120) /\
  _settings_to_kwargs [("suggested_bpm"%string, JInt 120); ("drift"%string, JStr "5")]
  = Err TypeError.
Proof.
  split; [reflexivity|].
  apply (settings_not_a_number _ (JInt 120)); [reflexivity|].
  right. exists (JStr "5"). split; reflexivity.
Defined.

(** X4. For an integer [suggested_bpm] of [s] and an integer [drift] of
    [d] (15 when the key is absent), [_settings_to_kwargs] returns a
    window centred on [s] with half-width [d]; nothing checks the sign, so
    the window is well-ordered ([min_bpm <= max_bpm]) exactly when [d] is
    not negative, and a negative drift gives an inverted window. *)
Theorem settings_window_shape (settings : dict) (s d : Z) :
  dict_get "suggested_bpm" settings = Some (JInt s) ->
  dict_get "drift" settings = Some (JInt d) \/ (dict_get "drift" settings = None /\ d = 15) ->
  exists kw settings',
    _settings_to_kwargs settings = Ok (kw, settings') /\
    min_bpm kw + max_bpm kw = 2 * s /\
    max_bpm kw - min_bpm kw = 2 * d /\
    (min_bpm kw <= max_bpm kw <-> 0 <= d).
Proof.
  intros Hs Hd. unfold _settings_to_kwargs. rewrite Hs.
  exists {| min_bpm := s - d; max_bpm := s + d |}, (dict_pop "drift" settings).
  split_and!; simpl; [| lia | lia | lia].
  destruct Hd as [-> | [-> ->]]; reflexivity.
Qed.

Lemma settings_window_shape_witness :
  let settings := [("suggested_bpm"%string, JInt 120); ("drift"%string, JInt (-5))] in
  dict_get "suggested_bpm" settings = Some (JInt 120) /\
  exists kw settings',
    _settings_to_kwargs settings = Ok (kw, settings') /\
    min_bpm kw + max_bpm kw = 2 * 120 /\
    max_bpm kw - min_bpm kw = 2 * (-5) /\
    (min_bpm kw <= max_bpm kw <-> 0 <= -5).
Proof.
  intros settings. split; [reflexivity|].
  exact (settings_window_shape settings 120 (-5) eq_refl (or_introl eq_refl)).
Defined.

Example inverted_window :
  _settings_to_kwargs [("suggested_bpm"%string, JInt 120); ("drift"%string, JInt (-5))]
  = Ok ({| min_bpm := 125; max_bpm := 115 |}, [("suggested_bpm"%string, JInt 120)]).
Proof. reflexivity. Qed.

(** X5. The settings dict that [_settings_to_kwargs] leaves behind: with
    [suggested_bpm] present the [drift] key is gone and every other key is
    as before; without [suggested_bpm] the dict is untouched, and a [drift]
    in it is neither read nor removed. *)
Theorem settings_after_call (settings settings' : dict) (kw : kwargs) :
  _settings_to_kwargs settings = Ok (kw, settings') ->
  (dict_get "suggested_bpm" settings = None ->
   settings' = settings /\ kw = {| min_bpm := 60; max_bpm := 300 |}) /\
  (dict_get "suggested_bpm" settings <> None ->
   dict_get "drift" settings' = None /\
   forall key, key <> "drift"%string -> dict_get key settings' = dict_get key settings).
Proof.
  unfold _settings_to_kwargs. intros Hr.
  destruct (dict_get "suggested_bpm" settings) as [suggested|].
  - split; [intros Hn; discriminate Hn | intros _].
    destruct (as_number suggested) as [s|]; [|discriminate Hr].
    destruct (as_number (default (JInt 15) (dict_get "drift" settings))) as [d|];
      [|discriminate Hr].
    injection Hr as _ <-. split; [apply dict_get_pop_same|].
    intros key Hne. apply dict_get_pop_ne. congruence.
  - injection Hr as <- <-. split; [done | intros Hn; by destruct Hn].
Qed.

Lemma settings_after_call_witness :
  let settings := [("drift"%string, JInt 5); ("suggested_bpm"%string, JInt 120);
                   ("other"%string, JNull)] in
  _settings_to_kwargs settings
  = Ok ({| min_bpm := 115; max_bpm := 125 |},
        [("suggested_bpm"%string, JInt 120); ("other"%string, JNull)]) /\
  dict_get "drift" [("suggested_bpm"%string, JInt 120); ("other"%string, JNull)] = None.
Proof.
  intros settings. split; [reflexivity|].
  refine (proj1 (proj2 (settings_after_call settings _ _ eq_refl) _)).
  discriminate.
Defined.

(** ** What a computation touches *)

Lemma keeps_bind {A B} (m : M A) (f : A -> M B) :
  keeps_cache_ok m -> (forall a, keeps_cache_ok (f a)) -> keeps_cache_ok (bind m f).
Proof.
  intros Hm Hf w Hok. unfold bind. specialize (Hm w Hok).
  destruct (m w) as [[a|e] w']; simpl in *; [by apply Hf | done].
Qed.

Lemma keeps_try_except {A} (m : M A) (h : exn -> option (M A)) :
  keeps_cache_ok m -> (forall e handler, h e = Some handler -> keeps_cache_ok handler) ->
  keeps_cache_ok (try_except m h).
Proof.
  intros Hm Hh w Hok. unfold try_except. specialize (Hm w Hok).
  destruct (m w) as [[a|e] w']; simpl in *; [done|].
  destruct (h e) as [handler|] eqn:He; [by apply (Hh e) | done].
Qed.

Lemma keeps_ret {A} (a : A) : keeps_cache_ok (ret a).
Proof. by intros w Hok. Qed.

Lemma keeps_raise {A} (e : exn) : keeps_cache_ok (raise (A := A) e).
Proof. by intros w Hok. Qed.

Lemma keeps_lift {A} (r : result A) : keeps_cache_ok (lift r).
Proof. by intros w Hok. Qed.

Lemma keeps_read_file path : keeps_cache_ok (read_file path).
Proof. by intros w Hok. Qed.

Lemma keeps_write_file path content : keeps_cache_ok (write_file path content).
Proof. by intros w Hok. Qed.

Lemma keeps_logger ev : keeps_cache_ok (logger ev).
Proof. by intros w Hok. Qed.

Lemma keeps_os_remove path : keeps_cache_ok (os_remove path).
Proof. intros w Hok. unfold os_remove. by destruct (fs w !! path). Qed.

Lemma keeps_cache_setitem k v : keeps_cache_ok (cache_setitem k v).
Proof.
  intros w Hok. destruct (cache_setitem_ok k v w Hok) as (w' & -> & Hok' & _). exact Hok'.
Qed.

Lemma keeps_cache_getitem k : keeps_cache_ok (cache_getitem k).
Proof. intros w Hok. by apply cache_getitem_ok. Qed.

Lemma keeps_fingerprint filename : keeps_cache_ok (fingerprint filename).
Proof.
  unfold fingerprint. apply keeps_bind; [apply keeps_read_file | intros; apply keeps_ret].
Qed.

Lemma quiet_bind {A B} (m : M A) (f : A -> M B) :
  engine_quiet m -> (forall a, engine_quiet (f a)) -> engine_quiet (bind m f).
Proof.
  intros Hm Hf w. unfold bind. specialize (Hm w).
  destruct (m w) as [[a|e] w']; simpl in *; [by rewrite Hf | done].
Qed.

Lemma quiet_try_except {A} (m : M A) (h : exn -> option (M A)) :
  engine_quiet m -> (forall e handler, h e = Some handler -> engine_quiet handler) ->
  engine_quiet (try_except m h).
Proof.
  intros Hm Hh w. unfold try_except. specialize (Hm w).
  destruct (m w) as [[a|e] w']; simpl in *; [done|].
  destruct (h e) as [handler|] eqn:He; [by rewrite (Hh e handler He) | done].
Qed.

Lemma quiet_ret {A} (a : A) : engine_quiet (ret a).
Proof. by intros w. Qed.

Lemma quiet_lift {A} (r : result A) : engine_quiet (lift r).
Proof. by intros w. Qed.

Lemma quiet_read_file path : engine_quiet (read_file path).
Proof. by intros w. Qed.

Lemma quiet_write_file path content : engine_quiet (write_file path content).
Proof. by intros w. Qed.

Lemma quiet_logger ev : engine_quiet (logger ev).
Proof. by intros w. Qed.

Lemma quiet_os_remove path : engine_quiet (os_remove path).
Proof. intros w. unfold os_remove. by destruct (fs w !! path). Qed.

Lemma quiet_popitem : engine_quiet popitem.
Proof.
  unfold popitem. apply quiet_bind.
  - intros w. unfold super_popitem. by destruct (lru_popitem (cache w)) as [[kv c']|].
  - intros kv. apply quiet_bind; [apply quiet_logger|]. intros _.
    apply quiet_bind; [by intros w|].
    intros [|]; [apply quiet_os_remove | apply quiet_ret].
Qed.

Lemma quiet_make_room fuel : engine_quiet (make_room fuel).
Proof.
  induction fuel as [|fuel IH]; [apply quiet_ret|].
  intros w. simpl.
  destruct (maxsize (cache w) <? currsize (cache w) + 1)%nat; [|done].
  apply (quiet_bind popitem); [apply quiet_popitem | intros _; exact IH].
Qed.

Lemma quiet_cache_setitem k v : engine_quiet (cache_setitem k v).
Proof.
  intros w. unfold cache_setitem.
  destruct (maxsize (cache w) <? 1)%nat; [done|].
  apply (quiet_bind (if contains k (cache w) then ret tt
                     else make_room (S (currsize (cache w))))).
  - destruct (contains k (cache w)); [apply quiet_ret | apply quiet_make_room].
  - by intros _ w'.
Qed.

Lemma quiet_cache_getitem k : engine_quiet (cache_getitem k).
Proof. intros w. unfold cache_getitem. by destruct (getitem k (cache w)) as [[v c']|]. Qed.

Lemma quiet_fingerprint filename : engine_quiet (fingerprint filename).
Proof.
  unfold fingerprint. apply quiet_bind; [apply quiet_read_file | intros; apply quiet_ret].
Qed.

Lemma once_of_quiet {A} call (m : M A) : engine_quiet m -> engine_at_most_once call m.
Proof. intros Hm w. left. apply Hm. Qed.

Lemma once_after_quiet {A B} call (m : M A) (f : A -> M B) :
  engine_quiet m -> (forall a, engine_at_most_once call (f a)) ->
  engine_at_most_once call (bind m f).
Proof.
  intros Hm Hf w. unfold bind. specialize (Hm w).
  destruct (m w) as [[a|e] w']; simpl in *; [| by left].
  rewrite <- Hm. apply Hf.
Qed.

Lemma once_before_quiet {A B} call (m : M A) (f : A -> M B) :
  engine_at_most_once call m -> (forall a, engine_quiet (f a)) ->
  engine_at_most_once call (bind m f).
Proof.
  intros Hm Hf w. unfold bind. specialize (Hm w).
  destruct (m w) as [[a|e] w']; simpl in *; [| done].
  by rewrite Hf.
Qed.

Section PipelineFrames.
Context `{C : Collaborators}.

Lemma keeps_find_or_load_beats filename loader :
  keeps_cache_ok (find_or_load_beats filename loader).
Proof.
  unfold find_or_load_beats. apply keeps_bind; [apply keeps_fingerprint|]. intros d.
  apply keeps_bind; [by intros w Hok|]. intros hit. apply keeps_bind.
  - destruct hit; [|apply keeps_ret].
    apply keeps_bind; [apply keeps_logger|]. intros _. apply keeps_try_except.
    + apply keeps_bind; [apply keeps_cache_getitem|]. intros path.
      apply keeps_bind; [|intros; apply keeps_ret].
      unfold pickle_load_file. apply keeps_bind; [apply keeps_read_file|].
      intros; apply keeps_lift.
    + intros e handler [= <-].
      apply keeps_bind; [apply keeps_logger | intros; apply keeps_ret].
  - intros [beats|]; [apply keeps_ret|].
    unfold create_beats. apply keeps_bind; [apply keeps_logger|]. intros _.
    apply keeps_bind.
    + intros w Hok. unfold Beats_from_song.
      apply (keeps_bind (read_file filename)); [apply keeps_read_file | | exact Hok].
      intros; apply keeps_lift.
    + intros beats. apply keeps_bind; [apply keeps_write_file|]. intros _.
      apply keeps_bind; [apply keeps_cache_setitem | intros; apply keeps_ret].
Qed.

Lemma keeps_process_song effects filename processing_args :
  keeps_cache_ok (process_song effects filename processing_args).
Proof.
  unfold process_song. apply keeps_bind.
  - apply keeps_try_except.
    + intros w Hok. unfold MP3. by destruct (fs w !! filename).
    + intros e handler. destruct e; intros [= <-]. apply keeps_raise.
  - intros len. destruct (negb (Qle_bool len (inject_Z MAX_LENGTH))); [apply keeps_raise|].
    unfold transform. apply keeps_bind; [apply keeps_find_or_load_beats|]. intros beats.
    apply keeps_bind; [apply keeps_lift|]. intros beats'.
    apply keeps_bind; [apply keeps_lift|]. intros buf.
    apply keeps_bind; [apply keeps_os_remove | intros; apply keeps_ret].
Qed.

Lemma keeps_parse_effects effects : keeps_cache_ok (parse_effects effects).
Proof.
  unfold parse_effects. apply keeps_bind; [apply keeps_lift|]. intros text.
  apply keeps_bind; [apply keeps_lift|]. intros effect_data. apply keeps_bind.
  - destruct effect_data; try apply keeps_ret.
    apply keeps_bind; [apply keeps_lift | intros; apply keeps_ret].
  - intros split. apply keeps_bind; [|intros; apply keeps_ret].
    apply keeps_try_except.
    + apply keeps_bind; [apply keeps_lift | intros; apply keeps_lift].
    + intros e handler. destruct e; intros [= <-]. apply keeps_raise.
Qed.

Lemma keeps_handle r : keeps_cache_ok (handle r).
Proof.
  destruct r as [effects song tmpname | payload base_filename]; simpl.
  - unfold process_song_from_file. apply keeps_bind.
    + apply keeps_try_except; [apply keeps_parse_effects|].
      intros e handler. destruct e; intros [= <-]; apply keeps_raise.
    + intros parsed. destruct (5 <? length parsed.2)%nat; [apply keeps_raise|].
      destruct (length parsed.2 <? 1)%nat; [apply keeps_raise|].
      unfold process_upload. apply keeps_bind; [apply keeps_write_file|]. intros _.
      apply keeps_bind; [apply keeps_lift|]. intros data.
      apply keeps_bind; [apply keeps_write_file|]. intros _.
      apply keeps_bind; [apply keeps_lift | intros; apply keeps_process_song].
  - unfold process_song_from_youtube. apply keeps_bind.
    + apply keeps_try_except; [apply keeps_lift|].
      intros e handler. destruct e; intros [= <-]. apply keeps_raise.
    + intros chain. apply keeps_bind.
      * apply keeps_try_except.
        -- by intros w' Hok'.
        -- intros e handler [= <-]. apply keeps_raise.
      * intros _. apply keeps_bind; [apply keeps_lift | intros; apply keeps_process_song].
Qed.

(** X6. In every state the server reaches, after any requests to either
    endpoint (accepted, rejected or failing) and any changes to the disk
    in between, the cache holds at most 8 entries, under distinct
    fingerprints. *)
Theorem reachable_cache_bounded (w : world) :
  reachable w ->
  (currsize (cache w) <= 8)%nat /\ NoDup (keys (cache w)) /\ maxsize (cache w) = 8%nat.
Proof.
  intros Hr. enough (Hok : cache_ok (cache w)).
  { destruct Hok as (Hmax & Hnd & Hle). split_and!; [lia | done | done]. }
  induction Hr as [disk | r w Hr IH | disk w Hr IH].
  - apply cache_ok_empty.
  - by apply keeps_handle.
  - exact IH.
Qed.

Lemma quiet_found_block d :
  engine_quiet
    (let! _ := logger (CacheHit d) in
     try_except
       (let! path := cache_getitem d in
        let! beats := pickle_load_file path in
        ret (Some beats))
       (fun e => Some (let! _ := logger (CacheLoadFailed d e) in ret None))).
Proof.
  apply quiet_bind; [apply quiet_logger|]. intros _. apply quiet_try_except.
  - apply quiet_bind; [apply quiet_cache_getitem|]. intros path.
    apply quiet_bind; [|intros; apply quiet_ret].
    unfold pickle_load_file. apply quiet_bind; [apply quiet_read_file|].
    intros; apply quiet_lift.
  - intros e handler [= <-].
    apply quiet_bind; [apply quiet_logger | intros; apply quiet_ret].
Qed.

Lemma once_find_or_load_beats filename loader :
  engine_at_most_once (filename, loader) (find_or_load_beats filename loader).
Proof.
  unfold find_or_load_beats. apply once_after_quiet; [apply quiet_fingerprint|]. intros d.
  apply once_after_quiet; [by intros w|]. intros hit. apply once_after_quiet.
  - destruct hit; [apply quiet_found_block | apply quiet_ret].
  - intros [beats|]; [apply once_of_quiet, quiet_ret|].
    unfold create_beats. apply once_after_quiet; [apply quiet_logger|]. intros _.
    apply once_before_quiet.
    + intros w. right. unfold Beats_from_song, bind, read_file, lift. simpl.
      destruct (fs w !! filename) as [content|]; simpl; [|done].
      by destruct (from_song content loader).
    + intros beats. apply quiet_bind; [apply quiet_write_file|]. intros _.
      apply quiet_bind; [apply quiet_cache_setitem | intros; apply quiet_ret].
Qed.

(** X7. One call of [process_song] runs the beat engine at most once, and
    then on its own file with its own window, whatever the state and the
    outcome. *)
Theorem process_song_runs_engine_at_most_once (effects : list LoadableEffect)
    (filename : string) (processing_args : kwargs) (w : world) :
  let w' := snd (process_song effects filename processing_args w) in
  engine_calls w' = engine_calls w \/
  engine_calls w' = engine_calls w ++ [(filename, processing_args)].
Proof.
  revert w. change (engine_at_most_once (filename, processing_args)
                      (process_song effects filename processing_args)).
  unfold process_song. apply once_after_quiet.
  - apply quiet_try_except.
    + intros w. unfold MP3. by destruct (fs w !! filename).
    + intros e handler. destruct e; intros [= <-]. by intros w.
  - intros len. destruct (negb (Qle_bool len (inject_Z MAX_LENGTH)));
      [apply once_of_quiet; by intros w|].
    unfold transform. apply once_before_quiet; [apply once_find_or_load_beats|].
    intros beats. apply quiet_bind; [apply quiet_lift|]. intros beats'.
    apply quiet_bind; [apply quiet_lift|]. intros buf.
    apply quiet_bind; [apply quiet_os_remove | intros; apply quiet_ret].
Qed.

End PipelineFrames.

Lemma reachable_cache_bounded_witness :
  let w := snd (handle (PostFile (Some "r"%string) (Some (Toy.song 3)) "/tmp/tmpr.mp3")
                  (initial_world ∅)) in
  reachable w /\ (currsize (cache w) <= 8)%nat.
Proof.
  intros w.
  assert (Hr : reachable w) by (apply reach_request, reach_start).
  split; [exact Hr|].
  exact (proj1 (reachable_cache_bounded w Hr)).
Defined.

(** ** More on [find_or_load_beats] and [process_song] *)
Section SongFacts.
Context `{C : Collaborators}.

(** The miss path up to the store, when the engine succeeds. *)
Lemma create_beats_store d filename loader content b w :
  fs w !! filename = Some content ->
  from_song content loader = Ok b ->
  create_beats d filename loader w
  = bind (cache_setitem d (filename ++ "_beats.pkl")%string) (fun _ => ret b)
      (set_fs (<[(filename ++ "_beats.pkl")%string := pickle_dump b]> (fs w))
         (add_engine_call (filename, loader) (add_log (CacheMiss d) w))).
Proof.
  intros Hf Hb. unfold create_beats.
  erewrite bind_ok by reflexivity.
  erewrite bind_ok
    by (rewrite (Beats_from_song_run _ _ content) by exact Hf; rewrite Hb; reflexivity).
  erewrite bind_ok by reflexivity. reflexivity.
Qed.

(** X8. A miss with a working engine returns the analysis and stores it:
    the engine has run once, the cache maps the fingerprint to
    [<filename>_beats.pkl], and that file holds the pickled analysis. The
    exception: when the cache is full and the entry it evicts for this
    store has that very backing file, the file just written is deleted,
    and the new entry refers to a file that is not there. *)
Theorem miss_stores_analysis (w : world) (filename : string) (loader : kwargs)
    (content : bytes) (b : Beats) :
  cache_ok (cache w) ->
  fs w !! filename = Some content ->
  contains (content_digest content) (cache w) = false ->
  from_song content loader = Ok b ->
  let beat_filename := (filename ++ "_beats.pkl")%string in
  exists w',
    find_or_load_beats filename loader w = (Ok b, w') /\
    assoc (content_digest content) (entries (cache w')) = Some beat_filename /\
    engine_calls w' = engine_calls w ++ [(filename, loader)] /\
    ((currsize (cache w) < 8)%nat \/
     (forall k0 rest, entries (cache w) <> (k0, beat_filename) :: rest) ->
     fs w' !! beat_filename = Some (pickle_dump b)) /\
    (forall k0 rest,
       currsize (cache w) = 8%nat -> entries (cache w) = (k0, beat_filename) :: rest ->
       fs w' !! beat_filename = None).
Proof.
  intros Hok Hf Hc Hb beat_filename.
  pose proof Hok as (Hmax & Hnd & Hle).
  rewrite (find_or_load_beats_miss _ _ _ _ Hf Hc).
  rewrite (create_beats_store _ _ _ _ _ _ Hf Hb). fold beat_filename.
  revert Hc. generalize (content_digest content). intros d Hc.
  set (w0 := set_fs _ _).
  assert (Hstored : forall l : list (bytes * string),
             assoc d (remove_key d l ++ [(d, beat_filename)]) = Some beat_filename).
  { intros l. rewrite assoc_app, (proj2 (assoc_None _ _) (not_elem_remove_key _ _)).
    simpl. by rewrite decide_True. }
  destruct (decide (currsize (cache w) = maxsize (cache w))) as [Hfull|Hnf].
  - destruct (entries (cache w)) as [|[k0 v0] rest] eqn:He.
    { unfold currsize in Hfull. rewrite He in Hfull. simpl in Hfull. lia. }
    eexists. unfold bind.
    rewrite (cache_setitem_eviction d beat_filename w0 k0 v0 rest); [|simpl; lia|done|done|done].
    split_and!; [reflexivity | | done | |].
    + simpl. rewrite assoc_app.
      apply contains_false in Hc. unfold keys in Hc. rewrite He in Hc. simpl in Hc.
      apply not_elem_of_cons in Hc as [_ Hc].
      rewrite (proj2 (assoc_None _ _) Hc). simpl. by rewrite decide_True.
    + intros [Hlt | Hne]; [lia|]. simpl.
      rewrite lookup_delete_ne, lookup_insert_eq; [done|].
      intros ->. by apply (Hne k0 rest).
    + intros k1 rest1 _ [= _ -> _]. simpl. apply lookup_delete_eq.
  - eexists. unfold bind.
    rewrite (cache_setitem_no_eviction d beat_filename w0);
      [|simpl; lia | right; simpl; lia].
    split_and!; [reflexivity | apply Hstored | done | |].
    + intros _. simpl. apply lookup_insert_eq.
    + intros k1 rest1 H8. lia.
Qed.

(** X9. Two ways [find_or_load_beats] fails without a trace on disk or in
    the cache: when the source file is missing it raises
    [FileNotFoundError] and the state is untouched; when a miss meets an
    engine that raises, that exception is the result, and only the log and
    the record of engine runs have grown: no backing file is written and
    no entry is stored. *)
Theorem find_or_load_beats_failures (w : world) (filename : string) (loader : kwargs) :
  (fs w !! filename = None ->
   find_or_load_beats filename loader w = (Err FileNotFoundError, w)) /\
  (forall content e,
     fs w !! filename = Some content ->
     contains (content_digest content) (cache w) = false ->
     from_song content loader = Err e ->
     find_or_load_beats filename loader w
     = (Err e, add_engine_call (filename, loader)
                 (add_log (CacheMiss (content_digest content)) w))).
Proof.
  split.
  - intros Hf. unfold find_or_load_beats.
    by rewrite (bind_err _ _ w FileNotFoundError w) by (by apply fingerprint_missing).
  - intros content e Hf Hc He.
    rewrite (find_or_load_beats_miss _ _ _ _ Hf Hc).
    by apply (create_beats_engine_error _ _ _ content).
Qed.

(** X10. Recovery from a corrupt artifact. When the fingerprint is cached
    under [path], the artifact at [path] does not load and the engine
    succeeds, the call returns the fresh analysis, the cache maps the
    fingerprint to [<filename>_beats.pkl], that file holds the new pickle
    (so a corrupt file of that very name is rewritten in place), and the
    cache has as many entries as before. When [path] is another name, the
    corrupt file is left behind: what was at [path] is still there,
    neither deleted nor rewritten, and if the fingerprint was the only key
    that referred to [path], no entry refers to it any more. *)
Theorem corrupt_recovery_orphans_file (w : world) (filename : string) (loader : kwargs)
    (content : bytes) (path : string) (e : exn) (b : Beats) :
  cache_ok (cache w) ->
  fs w !! filename = Some content ->
  assoc (content_digest content) (entries (cache w)) = Some path ->
  stored_artifact w path = Err e ->
  from_song content loader = Ok b ->
  exists w',
    find_or_load_beats filename loader w = (Ok b, w') /\
    assoc (content_digest content) (entries (cache w'))
    = Some (filename ++ "_beats.pkl")%string /\
    fs w' !! (filename ++ "_beats.pkl")%string = Some (pickle_dump b) /\
    currsize (cache w') = currsize (cache w) /\
    (path <> (filename ++ "_beats.pkl")%string ->
     fs w' !! path = fs w !! path /\
     ((forall k, assoc k (entries (cache w)) = Some path -> k = content_digest content) ->
      forall k, assoc k (entries (cache w')) <> Some path)).
Proof.
  intros Hok Hf Ha Hbad Hb.
  set (beat_filename := (filename ++ "_beats.pkl")%string) in *.
  rewrite (find_or_load_beats_corrupt _ _ _ _ _ _ Hf Ha Hbad).
  revert Ha. generalize (content_digest content). intros d Ha.
  set (w0 := add_log (CacheLoadFailed d e) (looked_up d path w)).
  assert (Hf0 : fs w0 !! filename = Some content) by exact Hf.
  rewrite (create_beats_store d _ _ _ _ _ Hf0 Hb). fold beat_filename.
  set (w1 := set_fs _ _).
  assert (Hc1 : contains d (cache w1) = true) by apply contains_store.
  pose proof (cache_ok_looked_up d path w Hok Ha) as (Hmax1 & Hnd1 & Hle1).
  eexists. unfold bind.
  rewrite (cache_setitem_no_eviction d beat_filename w1); [|simpl; simpl in Hmax1; lia | by left].
  assert (Hin : d ∈ map fst (entries (cache w))).
  { apply assoc_is_Some. by rewrite Ha. }
  destruct Hok as (Hmax & Hnd & Hle).
  split_and!; [reflexivity | | | |].
  - simpl. rewrite assoc_app, (proj2 (assoc_None _ _) (not_elem_remove_key _ _)).
    simpl. by rewrite decide_True.
  - simpl. apply lookup_insert_eq.
  - unfold currsize. simpl. rewrite !length_app. simpl.
    pose proof (length_remove_key_present d (entries (cache w)) Hnd Hin) as Hlen.
    assert (Hin' : d ∈ map fst (remove_key d (entries (cache w)) ++ [(d, path)])).
    { rewrite map_app. apply elem_of_app. right. by apply list_elem_of_singleton. }
    pose proof (length_remove_key_present d _ (NoDup_keys_store d path (cache w) Hnd) Hin')
      as Hlen'.
    simpl in Hlen'. rewrite length_app in Hlen'. simpl in Hlen'. lia.
  - intros Hne. split.
    + simpl. by apply lookup_insert_ne.
    + intros Honly k Hk. simpl in Hk.
      destruct (decide (k = d)) as [->|Hkd].
      * rewrite assoc_app, (proj2 (assoc_None _ _) (not_elem_remove_key _ _)) in Hk.
        simpl in Hk. rewrite decide_True in Hk by done. congruence.
      * rewrite !assoc_moved_other in Hk by done. by apply Hkd, Honly.
Qed.

(** X11. What a successful [process_song] has done: the source file was
    readable with a duration of at most 390 seconds, the body of the
    response is the encoding of the analysis with the effects applied,
    served as [audio/mpeg], and the source file is gone from the disk. *)
Theorem process_song_success (effects : list LoadableEffect) (filename : string)
    (processing_args : kwargs) (w w' : world) (r : response) :
  process_song effects filename processing_args w = (Ok r, w') ->
  fs w' !! filename = None /\
  media_type r = "audio/mpeg"%string /\
  exists content len beats beats',
    fs w !! filename = Some content /\
    MP3_length content = Ok len /\
    (len <= 390)%Q /\
    fst (find_or_load_beats filename processing_args w) = Ok beats /\
    apply_effects effects beats = Ok beats' /\
    save beats' = Ok (body r).
Proof.
  intros Hrun.
  destruct (fs w !! filename) as [content|] eqn:Hf.
  2:{ unfold process_song, bind, try_except, MP3 in Hrun. rewrite Hf in Hrun.
      discriminate Hrun. }
  destruct (MP3_length content) as [len|e] eqn:Hlen.
  2:{ unfold process_song, bind, try_except in Hrun.
      rewrite (MP3_run _ _ _ Hf), Hlen in Hrun. destruct e; discriminate Hrun. }
  rewrite (process_song_checked _ _ _ _ _ _ Hf Hlen) in Hrun.
  destruct (Qle_bool len (inject_Z MAX_LENGTH)) eqn:Hle; [|discriminate Hrun].
  simpl in Hrun. unfold transform, bind at 1 in Hrun.
  destruct (find_or_load_beats filename processing_args w) as [[beats|e] w1]; [|discriminate].
  unfold bind at 1, lift in Hrun.
  destruct (apply_effects effects beats) as [beats'|e] eqn:Happ; [|discriminate].
  unfold bind at 1 in Hrun. destruct (save beats') as [buf|e] eqn:Hsave; [|discriminate].
  unfold bind, os_remove, ret in Hrun.
  destruct (fs w1 !! filename) as [c|] eqn:Hc; [|discriminate].
  injection Hrun as <- <-. simpl.
  split_and!; [apply lookup_delete_eq | done |].
  exists content, len, beats, beats'.
  split_and!; [done | done | by apply Qle_bool_iff in Hle | done | done | done].
Qed.

(** X12. A source file whose metadata cannot be read is refused with
    status 422 and nothing else happens: this is so when the file is
    missing and when the reader raises [MutagenError]. Any other exception
    of the reader is passed on as it is, again with the state untouched. *)
Theorem process_song_unreadable_metadata (effects : list LoadableEffect)
    (filename : string) (processing_args : kwargs) (w : world) :
  (fs w !! filename = None ->
   process_song effects filename processing_args w
   = (Err (HTTPException 422 "Failed to read song metadata"), w)) /\
  (forall content e,
     fs w !! filename = Some content ->
     MP3_length content = Err e ->
     process_song effects filename processing_args w
     = (Err (match e with
             | MutagenError => HTTPException 422 "Failed to read song metadata"
             | _ => e
             end), w)).
Proof.
  split.
  - intros Hf. unfold process_song, bind, try_except, MP3. by rewrite Hf.
  - intros content e Hf He. unfold process_song, bind, try_except.
    rewrite (MP3_run _ _ _ Hf), He. by destruct e.
Qed.


End SongFacts.

Lemma miss_stores_analysis_witness :
  let w := initial_world {[ "a.mp3"%string := Toy.song 5 ]} in
  cache_ok (cache w) /\
  fs w !! "a.mp3"%string = Some (Toy.song 5) /\
  contains (content_digest (Toy.song 5)) (cache w) = false /\
  exists w',
    find_or_load_beats "a.mp3" Toy.default_window w
    = (Ok [x3c; x2c; x01; x01; x01; x01; x01], w') /\
    fs w' !! "a.mp3_beats.pkl"%string = Some [x80; x3c; x2c; x01; x01; x01; x01; x01].
Proof.
  intros w.
  assert (Hok : cache_ok (cache w)) by apply cache_ok_empty.
  assert (H1 : fs w !! "a.mp3"%string = Some (Toy.song 5)) by (vm_compute; reflexivity).
  assert (H2 : contains (content_digest (Toy.song 5)) (cache w) = false) by reflexivity.
  assert (H3 : from_song (Toy.song 5) Toy.default_window
               = Ok [x3c; x2c; x01; x01; x01; x01; x01]) by reflexivity.
  split_and!; [exact Hok | exact H1 | exact H2 |].
  destruct (miss_stores_analysis w "a.mp3" Toy.default_window (Toy.song 5) _ Hok H1 H2 H3)
    as (w' & Hrun & _ & _ & Hfile & _).
  exists w'. split; [exact Hrun|].
  apply Hfile. left. vm_compute. lia.
Defined.

Lemma corrupt_recovery_orphans_file_witness :
  let w := set_fs (<[ "c1.mp3"%string := Toy.song 1 ]> (fs Toy.corrupted)) Toy.corrupted in
  cache_ok (cache w) /\
  fs w !! "c1.mp3"%string = Some (Toy.song 1) /\
  assoc (content_digest (Toy.song 1)) (entries (cache w)) = Some "s1.mp3_beats.pkl"%string /\
  stored_artifact w "s1.mp3_beats.pkl" = Err (Exception "UnpicklingError") /\
  exists w',
    find_or_load_beats "c1.mp3" Toy.default_window w = (Ok [x3c; x2c; x01], w') /\
    fs w' !! "s1.mp3_beats.pkl"%string = Some [x00; x01] /\
    assoc (content_digest (Toy.song 1)) (entries (cache w')) = Some "c1.mp3_beats.pkl"%string.
Proof.
  intros w.
  assert (Hok : cache_ok (cache w)).
  { split_and!; [vm_compute; reflexivity | | vm_compute; lia].
    apply (bool_decide_unpack _). vm_compute. exact I. }
  assert (H1 : fs w !! "c1.mp3"%string = Some (Toy.song 1)) by (vm_compute; reflexivity).
  assert (H2 : assoc (content_digest (Toy.song 1)) (entries (cache w))
               = Some "s1.mp3_beats.pkl"%string) by (vm_compute; reflexivity).
  assert (H3 : stored_artifact w "s1.mp3_beats.pkl" = Err (Exception "UnpicklingError"))
    by (vm_compute; reflexivity).
  assert (H4 : from_song (Toy.song 1) Toy.default_window = Ok [x3c; x2c; x01])
    by reflexivity.
  assert (H5 : "s1.mp3_beats.pkl"%string <> ("c1.mp3" ++ "_beats.pkl")%string)
    by (intros H; vm_compute in H; discriminate H).
  split_and!; [exact Hok | exact H1 | exact H2 | exact H3 |].
  destruct (corrupt_recovery_orphans_file w "c1.mp3" Toy.default_window (Toy.song 1)
              "s1.mp3_beats.pkl" _ _ Hok H1 H2 H3 H4)
    as (w' & Hrun & Hassoc & _ & _ & Hother).
  exists w'. split_and!; [exact Hrun | | exact Hassoc].
  rewrite (proj1 (Hother H5)). vm_compute. reflexivity.
Defined.

(** The same state, asked for the first song under its first name: the
    corrupt file is rewritten in place and stays the backing file. *)
Example corrupt_file_rewritten_in_place :
  let r := find_or_load_beats "s1.mp3" Toy.default_window Toy.corrupted in
  fs Toy.corrupted !! "s1.mp3_beats.pkl"%string = Some [x00; x01] /\
  fs (snd r) !! "s1.mp3_beats.pkl"%string = Some [x80; x3c; x2c; x01] /\
  assoc (content_digest (Toy.song 1)) (entries (cache (snd r)))
  = Some "s1.mp3_beats.pkl"%string.
Proof. vm_compute. repeat split. Qed.

Lemma process_song_success_witness :
  let w := initial_world {[ "/tmp/tmps.mp3"%string := Toy.song 3 ]} in
  let r := process_song [Toy.Reverse] "/tmp/tmps.mp3" Toy.default_window w in
  fst r = Ok {| body := [x01; x01; x01; x2c; x3c]; media_type := "audio/mpeg" |} /\
  fs (snd r) !! "/tmp/tmps.mp3"%string = None.
Proof.
  intros w r.
  assert (Hrun : process_song [Toy.Reverse] "/tmp/tmps.mp3" Toy.default_window w
                 = (Ok {| body := [x01; x01; x01; x2c; x3c]; media_type := "audio/mpeg" |},
                    snd r)) by (vm_compute; reflexivity).
  split; [vm_compute; reflexivity|].
  exact (proj1 (process_song_success _ _ _ w (snd r) _ Hrun)).
Defined.

(** ** The two handlers *)
Section HandlerFacts.
Context `{C : Collaborators}.

Lemma load_effects_Forall2 (descriptors : list json) (chain : list LoadableEffect) :
  load_effects descriptors = Ok chain <->
  Forall2 (fun d e => load_from_dict d = Ok e) descriptors chain.
Proof.
  revert chain. induction descriptors as [|d ds IH]; intros chain; simpl.
  - split.
    + intros [= <-]. constructor.
    + intros Hall. apply Forall2_nil_inv_l in Hall. by subst.
  - split.
    + destruct (load_from_dict d) as [e|x] eqn:Hd; [|discriminate].
      destruct (load_effects ds) as [es|x] eqn:Hds; [|discriminate].
      intros [= <-]. constructor; [done | by apply IH].
    + intros Hall. apply Forall2_cons_inv_l in Hall as (e & es & He & Hes & ->).
      rewrite He. apply IH in Hes. by rewrite Hes.
Qed.

Lemma load_effects_length (descriptors : list json) (chain : list LoadableEffect) :
  load_effects descriptors = Ok chain -> length chain = length descriptors.
Proof.
  intros Hl. apply load_effects_Forall2 in Hl. symmetry. by eapply Forall2_length.
Qed.

(** X14. Loading a list of descriptors succeeds exactly when each loads, and
    then gives the effects one for one in the same order; when it fails,
    the exception is that of the first descriptor that does not load, and
    the descriptors after it are not looked at. *)
Theorem load_effects_spec (descriptors : list json) :
  (forall chain,
     load_effects descriptors = Ok chain <->
     Forall2 (fun d e => load_from_dict d = Ok e) descriptors chain) /\
  (forall x,
     load_effects descriptors = Err x ->
     exists before d after chain,
       descriptors = before ++ d :: after /\
       load_effects before = Ok chain /\
       load_from_dict d = Err x).
Proof.
  split; [intros chain; apply load_effects_Forall2|].
  induction descriptors as [|d ds IH]; intros x; simpl; [discriminate|].
  destruct (load_from_dict d) as [e|y] eqn:Hd.
  - destruct (load_effects ds) as [es|y] eqn:Hds; [discriminate|].
    intros [= ->]. destruct (IH x eq_refl) as (before & d' & after & chain & -> & Hb & Hd').
    exists (d :: before), d', after, (e :: chain). simpl. by rewrite Hd, Hb.
  - intros [= ->]. by exists [], d, ds, [].
Qed.

(** The decoded form field of [POST /], split into settings and the value
    to iterate over. *)
Lemma parse_effects_run text j w :
  json_loads text = Ok j ->
  parse_effects (Some text) w
  = match (match j with
           | JObj members =>
               match dict_get "effects" (dict_pop "settings" members) with
               | Some effect_data =>
                   Ok (default (JObj []) (dict_get "settings" members), effect_data)
               | None => Err KeyError
               end
           | _ => Ok (JObj [], j)
           end) with
    | Err e => (Err e, w)
    | Ok (settings, effect_data) =>
        match (match py_iter effect_data with
               | Ok items => load_effects items
               | Err e => Err e
               end) with
        | Ok chain => (Ok (settings, chain), w)
        | Err TypeError => (Err (HTTPException 400 "Invalid effect data"), w)
        | Err e => (Err e, w)
        end
    end.
Proof.
  intros Hj. unfold parse_effects.
  rewrite (bind_ok _ _ w text w) by reflexivity.
  rewrite (bind_ok _ _ w j w) by (unfold lift; by rewrite Hj).
  assert (Hrest : forall settings effect_data : json,
             (let! effects :=
                try_except
                  (let! items := lift (py_iter effect_data) in lift (load_effects items))
                  invalid_effect_data in
              ret (settings, effects)) w
             = match (match py_iter effect_data with
                      | Ok items => load_effects items
                      | Err e => Err e
                      end) with
               | Ok chain => (Ok (settings, chain), w)
               | Err TypeError => (Err (HTTPException 400 "Invalid effect data"), w)
               | Err e => (Err e, w)
               end).
  { intros settings effect_data. unfold bind, try_except, lift, ret.
    destruct (py_iter effect_data) as [items|e]; simpl.
    - destruct (load_effects items) as [chain|e]; [done | by destruct e].
    - by destruct e. }
  destruct j as [| | | |l|members];
    try (erewrite bind_ok by reflexivity; apply Hrest).
  destruct (dict_get "effects" (dict_pop "settings" members)) as [effect_data|] eqn:He.
  - rewrite (bind_ok _ _ w (default (JObj []) (dict_get "settings" members), effect_data) w).
    + apply Hrest.
    + reflexivity.
  - rewrite (bind_err _ _ w KeyError w); [done|]. reflexivity.
Qed.

(** X15. [POST /] with a JSON list of descriptors, bare or under the key
    [effects] of an object, that all load: more than 5 are refused with
    400 "Too many effects", none with 400 "Not enough effects", both
    before anything is written; 1 to 5 go on to be processed with the
    settings of the object (none for a bare list). *)
Theorem upload_chain_length (text : string) (j settings : json) (descriptors : list json)
    (chain : list LoadableEffect) (song : option bytes) (tmpname : string) (w : world) :
  json_loads text = Ok j ->
  (j = JList descriptors /\ settings = JObj []) \/
  (exists members,
     j = JObj members /\ dict_get "effects" members = Some (JList descriptors) /\
     settings = default (JObj []) (dict_get "settings" members)) ->
  load_effects descriptors = Ok chain ->
  process_song_from_file (Some text) song tmpname w
  = if (5 <? length descriptors)%nat
    then (Err (HTTPException 400 "Too many effects (max is 5)"), w)
    else if (length descriptors <? 1)%nat
         then (Err (HTTPException 400 "Not enough effects (min is 1)"), w)
         else process_upload settings chain song tmpname w.
Proof.
  intros Hj Hshape Hload.
  rewrite <- (load_effects_length _ _ Hload).
  apply process_song_from_file_length_check.
  rewrite (parse_effects_run _ _ _ Hj).
  destruct Hshape as [[-> ->] | (members & -> & He & ->)].
  - simpl. by rewrite Hload.
  - rewrite dict_get_pop_ne by discriminate. rewrite He. simpl. by rewrite Hload.
Qed.

(** X16. [POST /] answers a bad [effects] field before it writes anything:
    text that is no JSON gives 400 "Invalid effects"; an object without
    the key [effects] gives 400 "Missing effects"; a number, a boolean or
    null in place of the list gives 400 "Invalid effect data". A request
    without the field at all is not answered with a 400: the [TypeError]
    of the decoder is passed on. *)
Theorem upload_bad_effects (song : option bytes) (tmpname : string) (w : world) :
  process_song_from_file None song tmpname w = (Err TypeError, w) /\
  forall text,
    (json_loads text = Err ValueError ->
     process_song_from_file (Some text) song tmpname w
     = (Err (HTTPException 400 "Invalid effects"), w)) /\
    (forall members,
       json_loads text = Ok (JObj members) -> dict_get "effects" members = None ->
       process_song_from_file (Some text) song tmpname w
       = (Err (HTTPException 400 "Missing effects"), w)) /\
    (forall j,
       json_loads text = Ok j ->
       j = JNull \/ (exists b, j = JBool b) \/ (exists n, j = JInt n) ->
       process_song_from_file (Some text) song tmpname w
       = (Err (HTTPException 400 "Invalid effect data"), w)).
Proof.
  split; [reflexivity|]. intros text. split_and!.
  - intros Hj. unfold process_song_from_file.
    rewrite (bind_err _ _ w (HTTPException 400 "Invalid effects") w); [done|].
    unfold try_except, parse_effects.
    rewrite (bind_ok _ _ w text w) by reflexivity.
    rewrite (bind_err _ _ w ValueError w); [done|]. unfold lift. by rewrite Hj.
  - intros members Hj He. unfold process_song_from_file.
    rewrite (bind_err _ _ w (HTTPException 400 "Missing effects") w); [done|].
    unfold try_except. rewrite (parse_effects_run _ _ _ Hj).
    rewrite dict_get_pop_ne by discriminate. by rewrite He.
  - intros j Hj Hshape. unfold process_song_from_file.
    rewrite (bind_err _ _ w (HTTPException 400 "Invalid effect data") w); [done|].
    unfold try_except. rewrite (parse_effects_run _ _ _ Hj).
    by destruct Hshape as [-> | [[b ->] | [n ->]]].
Qed.

(** X17. In [POST /] the class of the exception a descriptor raises picks
    the answer: [TypeError] gives 400 "Invalid effect data", but a
    [KeyError] is taken for a missing field (400 "Missing effects") and a
    [ValueError] for malformed JSON (400 "Invalid effects"); any other
    exception is passed on. Nothing is written in any of these cases. *)
Theorem upload_descriptor_exception (text : string) (descriptors : list json) (e : exn)
    (song : option bytes) (tmpname : string) (w : world) :
  json_loads text = Ok (JList descriptors) ->
  load_effects descriptors = Err e ->
  process_song_from_file (Some text) song tmpname w
  = (Err (match e with
          | TypeError => HTTPException 400 "Invalid effect data"
          | KeyError => HTTPException 400 "Missing effects"
          | ValueError => HTTPException 400 "Invalid effects"
          | _ => e
          end), w).
Proof.
  intros Hj Hload. unfold process_song_from_file.
  assert (Hparse : parse_effects (Some text) w
                   = (Err (match e with
                           | TypeError => HTTPException 400 "Invalid effect data"
                           | _ => e
                           end), w)).
  { rewrite (parse_effects_run _ _ _ Hj). simpl. rewrite Hload. by destruct e. }
  erewrite bind_err; [reflexivity|].
  unfold try_except. rewrite Hparse. by destruct e.
Qed.


End HandlerFacts.

Lemma upload_chain_length_witness :
  json_loads "rrrrrr" = Ok (JList (repeat (JObj [("type"%string, JStr "r")]) 6)) /\
  process_song_from_file (Some "rrrrrr"%string) (Some (Toy.song 3)) "/tmp/tmpu.mp3"
    (initial_world ∅)
  = (Err (HTTPException 400 "Too many effects (max is 5)"), initial_world ∅).
Proof.
  assert (Hj : json_loads "rrrrrr"
               = Ok (JList (repeat (JObj [("type"%string, JStr "r")]) 6))) by reflexivity.
  split; [exact Hj|].
  exact (upload_chain_length "rrrrrr" _ (JObj []) _ (repeat Toy.Reverse 6)
           (Some (Toy.song 3)) "/tmp/tmpu.mp3" (initial_world ∅) Hj
           (or_introl (conj eq_refl eq_refl)) eq_refl).
Defined.

Lemma upload_descriptor_exception_witness :
  json_loads "rx" = Ok (JList [JObj [("type"%string, JStr "r")];
                               JObj [("type"%string, JStr "x")]]) /\
  process_song_from_file (Some "rx"%string) (Some (Toy.song 3)) "/tmp/tmpu.mp3"
    (initial_world ∅)
  = (Err (HTTPException 400 "Invalid effect data"), initial_world ∅).
Proof.
  assert (Hj : json_loads "rx" = Ok (JList [JObj [("type"%string, JStr "r")];
                                            JObj [("type"%string, JStr "x")]]))
    by reflexivity.
  split; [exact Hj|].
  exact (upload_descriptor_exception "rx" _ TypeError (Some (Toy.song 3)) "/tmp/tmpu.mp3"
           (initial_world ∅) Hj eq_refl).
Defined.

(** A download whose conversion fails: the request is answered with 400
    and the fetched [.mp4] stays on disk. *)
Example failed_download_leaves_file :
  let r := process_song_from_youtube
             {| youtube_url := "!v"; effects := [[("type"%string, JStr "r")]]; settings := [] |}
             "u" (initial_world ∅) in
  fst r = Err (HTTPException 400 "Failed to download video") /\
  fs (snd r) !! "u.mp4"%string = Some [x21; x76].
Proof. vm_compute. repeat split. Qed.

(** ** The read loop and the upload *)

(** X19. The fingerprint does not depend on how the reads split the file:
    feeding the hash any sequence of blocks (short reads, empty reads,
    blocks of any size) gives the digest that the loop computes for their
    concatenation with its reads of 512 bytes. *)
Theorem fingerprint_any_chunking (pieces : list bytes) :
  XXH32.digest (fold_left XXH32.update pieces XXH32.init)
  = content_digest (concat pieces).
Proof.
  rewrite content_digest_one_shot.
  change XXH32.init with (XXH32.update XXH32.init []) at 1.
  by rewrite fold_update_init.
Qed.

Section UploadFacts.
Context `{C : Collaborators}.

(** X20. What [POST /] does once the chain is accepted: the temporary file
    is created first, so a request without the [song] field raises
    [AttributeError] with an empty file left at [tmpname]; otherwise the
    upload is written there; settings that raise then leave that file on
    disk, and good ones lead to [process_song] on it with their window. *)
Theorem upload_steps (settings : json) (chain : list LoadableEffect)
    (tmpname : string) (w : world) :
  process_upload settings chain None tmpname w
  = (Err AttributeError, set_fs (<[tmpname := []]> (fs w)) w) /\
  forall data,
    let w1 := set_fs (<[tmpname := data]> (fs w)) w in
    (forall e,
       settings_kwargs_of_json settings = Err e ->
       process_upload settings chain (Some data) tmpname w = (Err e, w1)) /\
    (forall args,
       settings_kwargs_of_json settings = Ok args ->
       process_upload settings chain (Some data) tmpname w
       = process_song chain tmpname args w1).
Proof.
  split; [reflexivity|].
  intros data w1.
  assert (Hw1 : set_fs (<[tmpname := data]> (fs (set_fs (<[tmpname := []]> (fs w)) w)))
                  (set_fs (<[tmpname := []]> (fs w)) w) = w1).
  { unfold w1, set_fs; simpl. by rewrite insert_insert_eq. }
  split.
  - intros e He. unfold process_upload.
    rewrite (bind_ok _ _ w tt (set_fs (<[tmpname := []]> (fs w)) w)) by reflexivity.
    rewrite (bind_ok _ _ _ data (set_fs (<[tmpname := []]> (fs w)) w)) by reflexivity.
    erewrite bind_ok by reflexivity. rewrite Hw1.
    erewrite bind_err; [reflexivity|]. unfold lift. by rewrite He.
  - intros args Ha. unfold process_upload.
    rewrite (bind_ok _ _ w tt (set_fs (<[tmpname := []]> (fs w)) w)) by reflexivity.
    rewrite (bind_ok _ _ _ data (set_fs (<[tmpname := []]> (fs w)) w)) by reflexivity.
    erewrite bind_ok by reflexivity. rewrite Hw1.
    erewrite bind_ok; [reflexivity|]. unfold lift. by rewrite Ha.
Qed.

End UploadFacts.
